(** * workgroup: goroutine groups with a failure mode and a concurrency limit

    A shallow embedding of [workgroup.Group] (package [workgroup]) as an
    interleaving transition system.  Every goroutine that is inside one of
    the methods of the group is a program counter in a thread pool; one
    step of the system executes one source statement of one goroutine.
    The callers of the package and the task functions [fn] are the
    environment: they may call any method at any time and a task may
    return any value at any time.

    The package comes in two versions: one with [Len] and plain task
    functions, one that runs every task through [retry.Do] with the retry
    options of the group.  The group only sees what the task, retried or
    not, finally returns, which is what [Return] delivers here; everything
    else is the same in both.

    The Go standard library pieces the package is built from
    ([errors.Join], [errors.Is], [sync.WaitGroup], [sync.Mutex],
    [sync.Once], channels, [context.WithCancel]) are modelled after their
    documented behaviour. *)

From Stdlib Require Import ZArith Lia Bool String.
From stdpp Require Import base numbers list.

Local Open Scope Z_scope.

(** ** Package [errors] *)

Module errors.

(** Addresses of heap objects.  The error values made by the standard
    library are pointers ([*errorString], [*wrapError], [*joinError]), and
    [==] on such interface values compares dynamic type and address.  For a
    value of a type declared by a caller the number identifies the value
    (its type and content). *)
Definition addr := nat.

#[local] Unset Elimination Schemes.
Inductive error : Type :=
| errorString (p : addr) (s : string)              (* errors.New(s) *)
| wrapError (p : addr) (msg : string) (e : error)  (* fmt.Errorf("...%w", e) *)
| joinError (p : addr) (errs : list error)         (* errors.Join(...) *)
(* a value of an error type declared by a caller: whether its dynamic type
   is comparable (a slice type is not); the targets its method
   [Is(target error) bool] accepts, a target being known by its number
   (none when the type has no such method); and what it unwraps to: one
   error for a non-nil [Unwrap() error], the elements of [Unwrap() []error],
   nothing otherwise *)
| customError (p : addr) (comparable : bool) (Is_method : addr -> bool)
    (unwrap : list error).
#[local] Set Elimination Schemes.

(** The number that identifies an error value. *)
Definition addr_of (e : error) : addr :=
  match e with
  | errorString p _ | wrapError p _ _ | joinError p _
  | customError p _ _ _ => p
  end.

(** [reflectlite.TypeOf(target).Comparable()] *)
Definition Comparable (e : error) : bool :=
  match e with
  | customError _ c _ _ => c
  | _ => true
  end.

(** [err == target] on two non-nil interface values of comparable dynamic
    type. *)
Definition same (a b : error) : bool :=
  match a, b with
  | errorString p _, errorString q _ => Nat.eqb p q
  | wrapError p _ _, wrapError q _ _ => Nat.eqb p q
  | joinError p _, joinError q _ => Nat.eqb p q
  | customError p _ _ _, customError q _ _ _ => Nat.eqb p q
  | _, _ => false
  end.

(** [x.Is(target)] when [err] has a method [Is(error) bool]. *)
Definition has_Is (e target : error) : bool :=
  match e with
  | customError _ _ accepts _ => accepts (addr_of target)
  | _ => false
  end.

(** [func is(err, target error, targetComparable bool) bool]: compare when
    the target is comparable, ask the method [Is] of [err], then follow
    [Unwrap() error] or [Unwrap() []error]. *)
Fixpoint is_ (e target : error) {struct e} : bool :=
  (Comparable target && same e target) || has_Is e target ||
  match e with
  | errorString _ _ => false
  | wrapError _ _ inner => is_ inner target
  | joinError _ errs => existsb (fun x => is_ x target) errs
  | customError _ _ _ inner => existsb (fun x => is_ x target) inner
  end.

(** [func Is(err, target error) bool]; [None] is the nil interface. *)
Definition Is (e target : option error) : bool :=
  match e, target with
  | Some e, Some t => is_ e t
  | None, None => true
  | _, _ => false
  end.

(** The non-nil members of an argument list. *)
Definition non_nil (errs : list (option error)) : list error :=
  omap id errs.

(** [func Join(errs ...error) error]: nil when every argument is nil,
    otherwise a freshly allocated [*joinError] (at address [p]) holding
    the non-nil arguments in order. *)
Definition Join (p : addr) (errs : list (option error)) : option error :=
  match non_nil errs with
  | [] => None
  | es => Some (joinError p es)
  end.

End errors.

Import errors.

(** ** The group *)

(** [type FailureMode int] with [Collect = iota] and [FailFast]. *)
Inductive FailureMode := Collect | FailFast.

(** A [chan struct{}]: the elements carry no data, so a channel is its
    capacity and the number of buffered elements. *)
Record chan := { cap : Z; qcount : Z }.

(** [make(chan struct{}, n)] panics for a negative size. *)
Definition make_chan (n : Z) : option chan :=
  if n <? 0 then None else Some {| cap := n; qcount := 0 |}.

(** The closure returned by [context.WithCancel]. *)
Inductive CancelFunc := cancelCtx.

(** [type Group struct]; nil-able fields are options, the [sync] objects
    are their abstract states (the counter of the WaitGroup as an unbounded
    integer). *)
Record Group := {
  cancel : option CancelFunc;     (* cancel func() *)
  wg : Z;                         (* wg sync.WaitGroup: the counter *)
  err : option error;             (* err error *)
  errLock : bool;                 (* errLock sync.Mutex: locked? *)
  errOnce : bool;                 (* errOnce sync.Once: done? *)
  sem : option chan;              (* sem chan struct{} *)
  failureMode : FailureMode
}.

(** The zero value of [Group], documented as valid. *)
Definition zero_Group : Group :=
  {| cancel := None; wg := 0; err := None; errLock := false;
     errOnce := false; sem := None; failureMode := Collect |}.

(** [type Option func(g *Group)]; [None] is a panic inside the option. *)
Definition Option := Group -> option Group.

(** [func WithLimit(n int) Option]: [g.sem = make(chan struct{}, n)]. *)
Definition WithLimit (n : Z) : Option :=
  fun g =>
    match make_chan n with
    | None => None
    | Some c =>
        Some {| cancel := cancel g; wg := wg g; err := err g;
                errLock := errLock g; errOnce := errOnce g;
                sem := Some c; failureMode := failureMode g |}
    end.

(** [for _, opt := range opts { opt(g) }] *)
Fixpoint apply_opts (opts : list Option) (g : Group) : option Group :=
  match opts with
  | [] => Some g
  | opt :: rest =>
      match opt g with
      | None => None
      | Some g' => apply_opts rest g'
      end
  end.

(** ** Program counters

    One constructor per source statement at which a goroutine can be.  The
    local variable [err] of the goroutine started by [Go] is an argument
    of the program counters that follow [err := fn()].  The [ctx] argument
    of [Go] is not used by the method. *)
Inductive pc :=
(* func (g *Group) Go(ctx, fn), on the caller's goroutine *)
| Go_add_sem                         (* add: if g.sem != nil { g.sem <- struct{}{} } *)
| Go_add_wg                          (* add: g.wg.Add(1) *)
| Go_go                              (* go func() { ... }() *)
(* the goroutine started by Go *)
| Task_fn                            (* err := fn() *)
| Task_Lock (e : error)              (* g.errLock.Lock() *)
| Task_mode (e : error)              (* if g.failureMode == FailFast {...}; g.err = errors.Join(g.err, err) *)
| Task_Unlock (e : error)            (* deferred g.errLock.Unlock() *)
| Task_done_sem (r : option error)   (* deferred done: if g.sem != nil { <-g.sem } *)
| Task_done_wg (r : option error)    (* deferred done: g.wg.Done() *)
| Task_exit (r : option error)       (* the goroutine has ended *)
(* func (g *Group) Wait() error *)
| Wait_wg                            (* g.wg.Wait() *)
| Wait_Cancel                        (* g.Cancel() *)
| Wait_return                        (* return g.err *)
| Wait_returned (r : option error)
(* func (g *Group) Cancel() *)
| Cancel_call
| Cancel_returned
(* func (g *Group) Len() int *)
| Len_call
| Len_returned (n : Z).

(** ** States *)

Record State := {
  grp : Group;
  parent : bool;       (* the parent context is done *)
  ctx : bool;          (* the context derived by New is done *)
  heap : addr;         (* next address handed out to errors.Join *)
  threads : list pc
}.

Definition with_grp (g : Group) (s : State) : State :=
  {| grp := g; parent := parent s; ctx := ctx s; heap := heap s;
     threads := threads s |}.

Definition with_ctx (b : bool) (s : State) : State :=
  {| grp := grp s; parent := parent s; ctx := b; heap := heap s;
     threads := threads s |}.

Definition goto (i : nat) (p : pc) (s : State) : State :=
  {| grp := grp s; parent := parent s; ctx := ctx s; heap := heap s;
     threads := <[i:=p]> (threads s) |}.

Definition spawn (p : pc) (s : State) : State :=
  {| grp := grp s; parent := parent s; ctx := ctx s; heap := heap s;
     threads := threads s ++ [p] |}.

Definition set_wg (n : Z) (g : Group) : Group :=
  {| cancel := cancel g; wg := n; err := err g; errLock := errLock g;
     errOnce := errOnce g; sem := sem g; failureMode := failureMode g |}.

Definition set_err (e : option error) (g : Group) : Group :=
  {| cancel := cancel g; wg := wg g; err := e; errLock := errLock g;
     errOnce := errOnce g; sem := sem g; failureMode := failureMode g |}.

Definition set_errLock (b : bool) (g : Group) : Group :=
  {| cancel := cancel g; wg := wg g; err := err g; errLock := b;
     errOnce := errOnce g; sem := sem g; failureMode := failureMode g |}.

Definition set_errOnce (b : bool) (g : Group) : Group :=
  {| cancel := cancel g; wg := wg g; err := err g; errLock := errLock g;
     errOnce := b; sem := sem g; failureMode := failureMode g |}.

Definition set_sem (c : option chan) (g : Group) : Group :=
  {| cancel := cancel g; wg := wg g; err := err g; errLock := errLock g;
     errOnce := errOnce g; sem := c; failureMode := failureMode g |}.

(** [func New(ctx, mode, opts...) (context.Context, *Group)].
    [context.WithCancel(ctx)] derives a context that is done as soon as
    its parent is; the state returned holds the derived context and the
    group.  [None] when an option panics. *)
Definition New (parent_done : bool) (mode : FailureMode) (opts : list Option)
  : option State :=
  let g := {| cancel := Some cancelCtx; wg := 0; err := None;
              errLock := false; errOnce := false; sem := None;
              failureMode := mode |} in
  match apply_opts opts g with
  | None => None
  | Some g' =>
      Some {| grp := g'; parent := parent_done; ctx := parent_done;
              heap := 0%nat; threads := [] |}
  end.

(** ** Statements *)

(** [func (g *Group) Cancel()]: [if g.cancel != nil { g.cancel() }]. *)
Definition Cancel (s : State) : State :=
  match cancel (grp s) with
  | Some cancelCtx => with_ctx true s
  | None => s
  end.

(** [func (g *Group) Len() int]: [len(g.sem)], 0 for a nil channel. *)
Definition Len (g : Group) : Z :=
  match sem g with
  | None => 0
  | Some c => qcount c
  end.

(** The function passed to [g.errOnce.Do]: [g.err = err; g.Cancel()]. *)
Definition first_error (e : error) (s : State) : State :=
  Cancel (with_grp (set_err (Some e) (grp s)) s).

(** [g.errOnce.Do(f)]: runs [f] unless the latch is set, then sets it. *)
Definition errOnce_Do (f : State -> State) (s : State) : State :=
  if errOnce (grp s) then s
  else let s' := f s in with_grp (set_errOnce true (grp s')) s'.

(** [g.err = errors.Join(g.err, err)] *)
Definition collect_error (e : error) (s : State) : State :=
  {| grp := set_err (Join (heap s) [err (grp s); Some e]) (grp s);
     parent := parent s; ctx := ctx s; heap := S (heap s);
     threads := threads s |}.

Inductive outcome :=
| Next (s : State)     (* the statement was executed *)
| Blocked              (* the goroutine waits *)
| Panic                (* the runtime panics *)
| Invalid.             (* no such goroutine, or it has nothing to execute *)

(** One statement of goroutine [i], which is at [p]. *)
Definition exec (i : nat) (p : pc) (s : State) : outcome :=
  let g := grp s in
  match p with
  | Go_add_sem =>
      match sem g with
      | None => Next (goto i Go_add_wg s)
      | Some c =>
          if qcount c <? cap c
          then Next (goto i Go_add_wg
                       (with_grp (set_sem (Some {| cap := cap c; qcount := qcount c + 1 |}) g) s))
          else Blocked
      end
  | Go_add_wg => Next (goto i Go_go (with_grp (set_wg (wg g + 1) g) s))
  | Go_go => Next (goto i Task_fn s)
  | Task_fn => Invalid
  | Task_Lock e =>
      if errLock g then Blocked
      else Next (goto i (Task_mode e) (with_grp (set_errLock true g) s))
  | Task_mode e =>
      match failureMode g with
      | FailFast => Next (goto i (Task_Unlock e) (errOnce_Do (first_error e) s))
      | Collect => Next (goto i (Task_Unlock e) (collect_error e s))
      end
  | Task_Unlock e =>
      if errLock g
      then Next (goto i (Task_done_sem (Some e)) (with_grp (set_errLock false g) s))
      else Panic
  | Task_done_sem r =>
      match sem g with
      | None => Next (goto i (Task_done_wg r) s)
      | Some c =>
          if 0 <? qcount c
          then Next (goto i (Task_done_wg r)
                       (with_grp (set_sem (Some {| cap := cap c; qcount := qcount c - 1 |}) g) s))
          else Blocked
      end
  | Task_done_wg r =>
      if wg g - 1 <? 0 then Panic
      else Next (goto i (Task_exit r) (with_grp (set_wg (wg g - 1) g) s))
  | Task_exit _ => Invalid
  | Wait_wg => if wg g =? 0 then Next (goto i Wait_Cancel s) else Blocked
  | Wait_Cancel => Next (goto i Wait_return (Cancel s))
  | Wait_return => Next (goto i (Wait_returned (err g)) s)
  | Wait_returned _ => Invalid
  | Cancel_call => Next (goto i Cancel_returned (Cancel s))
  | Cancel_returned => Invalid
  | Len_call => Next (goto i (Len_returned (Len g)) s)
  | Len_returned _ => Invalid
  end.

(** The methods a caller can invoke. *)
Inductive method := Go | Wait | CancelM | LenM.

Definition entry (m : method) : pc :=
  match m with
  | Go => Go_add_sem
  | Wait => Wait_wg
  | CancelM => Cancel_call
  | LenM => Len_call
  end.

(** What can happen next. *)
Inductive action :=
| Call (m : method)                    (* some goroutine calls a method *)
| Step (i : nat)                       (* goroutine i executes its statement *)
| Return (i : nat) (r : option error)  (* fn() returns r in goroutine i *)
| Handoff (i j : nat)                  (* unbuffered channel: sender i meets receiver j *)
| ParentCancel.                        (* the parent context is cancelled *)

(** What [fn] returning [r] leads to: [if err != nil {...}], else the
    deferred [g.done()]. *)
Definition after_fn (r : option error) : pc :=
  match r with
  | Some e => Task_Lock e
  | None => Task_done_sem None
  end.

Definition step (a : action) (s : State) : outcome :=
  match a with
  | Call m => Next (spawn (entry m) s)
  | Step i =>
      match threads s !! i with
      | Some p => exec i p s
      | None => Invalid
      end
  | Return i r =>
      match threads s !! i with
      | Some Task_fn => Next (goto i (after_fn r) s)
      | _ => Invalid
      end
  | Handoff i j =>
      match sem (grp s), threads s !! i, threads s !! j with
      | Some c, Some Go_add_sem, Some (Task_done_sem r) =>
          if cap c =? 0
          then Next (goto j (Task_done_wg r) (goto i Go_add_wg s))
          else Invalid
      | _, _, _ => Invalid
      end
  | ParentCancel =>
      Next {| grp := grp s; parent := true; ctx := true; heap := heap s;
              threads := threads s |}
  end.

(** A schedule runs when every action in it can be executed. *)
Fixpoint run (acts : list action) (s : State) : option State :=
  match acts with
  | [] => Some s
  | a :: rest =>
      match step a s with
      | Next s' => run rest s'
      | _ => None
      end
  end.

Definition reachable (s0 s : State) : Prop :=
  exists acts, run acts s0 = Some s.

(** ** Where a goroutine is *)

(** Between [g.sem <- struct{}{}] and [<-g.sem]: holding capacity. *)
Definition holds (p : pc) : bool :=
  match p with
  | Go_add_wg | Go_go | Task_fn | Task_Lock _ | Task_mode _
  | Task_Unlock _ | Task_done_sem _ => true
  | _ => false
  end.

(** Between [g.wg.Add(1)] and [g.wg.Done()]: submitted and not completed. *)
Definition outstanding (p : pc) : bool :=
  match p with
  | Go_go | Task_fn | Task_Lock _ | Task_mode _ | Task_Unlock _
  | Task_done_sem _ | Task_done_wg _ => true
  | _ => false
  end.

(** Inside a call of [Go] that has not yet started its goroutine. *)
Definition submitting (p : pc) : bool :=
  match p with
  | Go_add_sem | Go_add_wg | Go_go => true
  | _ => false
  end.

(** Between [g.errLock.Lock()] and [g.errLock.Unlock()]. *)
Definition critical (p : pc) : bool :=
  match p with
  | Task_mode _ | Task_Unlock _ => true
  | _ => false
  end.

(** Running the task function. *)
Definition running (p : pc) : bool :=
  match p with
  | Task_fn => true
  | _ => false
  end.

(** The error a goroutine has handed to the failure mode, if any. *)
Definition reported (p : pc) : option error :=
  match p with
  | Task_Unlock e => Some e
  | Task_done_sem r | Task_done_wg r | Task_exit r => r
  | _ => None
  end.

(** Has handed an error to the failure mode. *)
Definition has_reported (p : pc) : bool :=
  match p with
  | Task_Unlock _ | Task_done_sem (Some _) | Task_done_wg (Some _)
  | Task_exit (Some _) => true
  | _ => false
  end.

(** Its task function has returned an error. *)
Definition has_failed (p : pc) : bool :=
  match p with
  | Task_Lock _ | Task_mode _ => true
  | _ => has_reported p
  end.

(** The number of goroutines whose program counter satisfies [f]. *)
Fixpoint count (f : pc -> bool) (ts : list pc) : Z :=
  match ts with
  | [] => 0
  | p :: rest => Z.b2z (f p) + count f rest
  end.


(** ** The invariant of the group

    What holds in every state that a group made by [New] can reach. *)
Record Inv (s : State) : Prop := {
  (* the WaitGroup counter counts the goroutines between Add and Done *)
  inv_wg : wg (grp s) = count outstanding (threads s);
  (* the channel buffers one element per goroutine holding capacity *)
  inv_sem : forall c, sem (grp s) = Some c ->
      qcount c = count holds (threads s) /\ qcount c <= cap c;
  (* the mutex is locked exactly while one goroutine is in the critical section *)
  inv_lock : Z.b2z (errLock (grp s)) = count critical (threads s);
  (* the error slot is nil exactly when no goroutine has reported *)
  inv_err : match err (grp s) with
            | None => count has_reported (threads s) = 0
            | Some _ => 1 <= count has_reported (threads s)
            end;
  (* the latch and the error slot *)
  inv_once : errOnce (grp s) = true -> err (grp s) <> None;
  inv_latch : failureMode (grp s) = FailFast ->
      errOnce (grp s) = false -> err (grp s) = None;
  (* Collect: whatever a reported error matches, the error slot matches *)
  inv_collect : failureMode (grp s) = Collect ->
      Forall (fun p => forall e t, reported p = Some e ->
                Is (Some e) (Some t) = true ->
                Is (err (grp s)) (Some t) = true) (threads s)
}.

(** A goroutine made by a call of [Go]. *)
Definition of_Go (p : pc) : bool :=
  match p with
  | Go_add_sem | Go_add_wg | Go_go | Task_fn | Task_Lock _ | Task_mode _
  | Task_Unlock _ | Task_done_sem _ | Task_done_wg _ | Task_exit _ => true
  | _ => false
  end.

(** A call of [Go] that has passed the channel. *)
Definition started (p : pc) : bool :=
  match p with
  | Go_add_sem => false
  | _ => of_Go p
  end.

(** A call of [Wait] that has returned a non-nil error. *)
Definition returned_error (p : pc) : bool :=
  match p with
  | Wait_returned (Some _) => true
  | _ => false
  end.

(** A new call of [Go]. *)
Definition is_Call_Go (a : action) : bool :=
  match a with
  | Call Go => true
  | _ => false
  end.


(** The goroutines an action moves. *)
Definition moves (a : action) (i : nat) : Prop :=
  match a with
  | Step j | Return j _ => j = i
  | Handoff j k => j = i \/ k = i
  | _ => False
  end.

(** The statements that call the cancel function of the derived context:
    [g.Cancel()] called by a user, [g.Cancel()] in [Wait], and the function
    run by [g.errOnce.Do] in [FailFast] mode while the latch is open. *)
Definition calls_cancel (s : State) (i : nat) : bool :=
  match threads s !! i with
  | Some Cancel_call | Some Wait_Cancel => true
  | Some (Task_mode _) =>
      match failureMode (grp s) with
      | FailFast => negb (errOnce (grp s))
      | Collect => false
      end
  | _ => false
  end.

(** ** Sample values and schedules *)

Definition errInternal : error := errorString 1%nat "internal".
Definition errInvalid : error := errorString 2%nat "invalid".
Definition Canceled : error := errorString 0%nat "context canceled".
Definition error1 : error := wrapError 3%nat "error 1: internal" errInternal.
Definition error2 : error := wrapError 4%nat "error 2: invalid" errInvalid.


(** A group used through its zero value: no constructor, so no derived
    context and a nil [cancel]. *)
Definition zero_State : State :=
  {| grp := zero_Group; parent := false; ctx := false; heap := 0%nat;
     threads := [] |}.

(** The state after [New(ctx, mode, WithLimit(n)...)] and a schedule; the
    zero state when the constructor panics or the schedule cannot run. *)
Definition after (mode : FailureMode) (ns : list Z) (acts : list action)
  : State :=
  match New false mode (map WithLimit ns) with
  | Some s0 =>
      match run acts s0 with
      | Some s => s
      | None => zero_State
      end
  | None => zero_State
  end.

(** [g.Go(ctx, fn)] executed without interruption by goroutine [i]. *)
Definition Go_uninterrupted (i : nat) : list action :=
  [Call Go; Step i; Step i; Step i].

(** What goroutine [i] does after [fn] failed, without interruption:
    Lock, failure mode, Unlock, and the two statements of [done]. *)
Definition fail_uninterrupted (i : nat) (e : error) : list action :=
  [Return i (Some e); Step i; Step i; Step i; Step i; Step i].

(** What goroutine [i] does after [fn] succeeded: the statements of [done]. *)
Definition succeed_uninterrupted (i : nat) : list action :=
  [Return i None; Step i; Step i].

(** [g.Wait()] executed without interruption by goroutine [i]. *)
Definition Wait_uninterrupted (i : nat) : list action :=
  [Call Wait; Step i; Step i; Step i].

(** What holds while no task has ever been submitted. *)
Record Idle (s : State) : Prop := {
  idle_threads : count of_Go (threads s) = 0;
  idle_returned : count returned_error (threads s) = 0;
  idle_wg : wg (grp s) = 0;
  idle_err : err (grp s) = None
}.


(** ** Further notions *)

(** [New] with its argument [ctx] as the interface value that it is: nil,
    or a context that is done or not.  The first statement of [New],
    [context.WithCancel(ctx)], panics on the nil interface ("cannot create
    context from nil parent"), before any option is applied. *)
Definition New_ctx (ctx : option bool) (mode : FailureMode)
    (opts : list Option) : option State :=
  match ctx with
  | None => None
  | Some parent_done => New parent_done mode opts
  end.

(** Past the call of the cancel function in [Cancel] or in [Wait]. *)
Definition past_Cancel (p : pc) : bool :=
  match p with
  | Wait_return | Wait_returned _ | Cancel_returned => true
  | _ => false
  end.

(** The context and its causes: the derived context is done only for a
    reason, and each reason makes it done on a group with a cancel
    function; the latch is never set in [Collect] mode. *)
Record Ctx_inv (s : State) : Prop := {
  ctx_cause : ctx s = true ->
      parent s = true \/ errOnce (grp s) = true \/
      1 <= count past_Cancel (threads s);
  ctx_parent : parent s = true -> ctx s = true;
  ctx_once : cancel (grp s) <> None -> errOnce (grp s) = true -> ctx s = true;
  ctx_called : cancel (grp s) <> None ->
      1 <= count past_Cancel (threads s) -> ctx s = true;
  once_mode : failureMode (grp s) = Collect -> errOnce (grp s) = false
}.

(** The errors that have been handed to the failure mode, by goroutine. *)
Definition reports (ts : list pc) : list error := omap reported ts.

(** The members of the aggregate that the [Collect] branch builds: every
    [errors.Join(g.err, err)] wraps the previous aggregate and the new error
    in one more [*joinError], so the members are read by following the
    first element of [Unwrap() []error] down to the first join. *)
Fixpoint collected (e : error) : list error :=
  match e with
  | joinError _ [x] => [x]
  | joinError _ [old; x] => collected old ++ [x]
  | _ => []
  end.

Definition slot_errors (o : option error) : list error :=
  match o with
  | Some e => collected e
  | None => []
  end.

(** The statements a goroutine made by [Go] has before it ends, at most. *)
Definition rank (p : pc) : Z :=
  match p with
  | Go_add_sem => 9
  | Go_add_wg => 8
  | Go_go => 7
  | Task_fn => 6
  | Task_Lock _ => 5
  | Task_mode _ => 4
  | Task_Unlock _ => 3
  | Task_done_sem _ => 2
  | Task_done_wg _ => 1
  | _ => 0
  end.

Fixpoint work (ts : list pc) : Z :=
  match ts with
  | [] => 0
  | p :: rest => rank p + work rest
  end.

(** Can execute its next statement whatever the others do. *)
Definition free (p : pc) : bool :=
  match p with
  | Go_add_wg | Go_go | Task_fn | Task_mode _ | Task_Unlock _
  | Task_done_sem _ | Task_done_wg _ => true
  | _ => false
  end.

Definition at_Lock (p : pc) : bool :=
  match p with
  | Task_Lock _ => true
  | _ => false
  end.

Definition at_add_sem (p : pc) : bool :=
  match p with
  | Go_add_sem => true
  | _ => false
  end.


(** ** workgroup.go: the group with a retry policy

    [workgroup.go] declares the same package with one more field in the
    group, [retryOptions []retry.Option], one more option, [WithRetry], and
    a constructor that installs a default policy.  The options of retry-go
    are values of a library that is not part of this repository: they are
    an interface here, with the three options that [New] names. *)

Module context.

(** A [context.Context] by the way it was made. *)
Inductive Context :=
| root (id : nat)                  (* a context of the caller *)
| WithCancel (parent : Context).   (* ctx, cancel := context.WithCancel(parent) *)

End context.

Module retry.

Class API := {
  Option : Type;                            (* type Option func(c *Config) *)
  Attempts : Z -> Option;                   (* func Attempts(attempts uint) Option *)
  LastErrorOnly : bool -> Option;           (* func LastErrorOnly(lastErrorOnly bool) Option *)
  Context : context.Context -> Option       (* func Context(ctx context.Context) Option *)
}.

End retry.

Module workgroup_go.

(** [type Group struct] of [workgroup.go], in the order of the source. *)
Record Group `{retry.API} := {
  cancel : option CancelFunc;
  err : option error;
  errOnce : bool;
  errLock : bool;
  wg : Z;
  sem : option chan;
  failureMode : FailureMode;
  retryOptions : list retry.Option
}.

Definition Option `{retry.API} := Group -> option Group.

(** [func WithLimit(n int) Option]: [g.sem = make(chan struct{}, n)]. *)
Definition WithLimit `{retry.API} (n : Z) : Option :=
  fun g =>
    match make_chan n with
    | None => None
    | Some c =>
        Some {| cancel := cancel g; err := err g; errOnce := errOnce g;
                errLock := errLock g; wg := wg g; sem := Some c;
                failureMode := failureMode g;
                retryOptions := retryOptions g |}
    end.

(** [func WithRetry(opts ...retry.Option) Option]:
    [g.retryOptions = append(g.retryOptions, opts...)]. *)
Definition WithRetry `{retry.API} (opts : list retry.Option) : Option :=
  fun g =>
    Some {| cancel := cancel g; err := err g; errOnce := errOnce g;
            errLock := errLock g; wg := wg g; sem := sem g;
            failureMode := failureMode g;
            retryOptions := retryOptions g ++ opts |}.

(** [for _, opt := range opts { opt(g) }] *)
Fixpoint apply_opts `{retry.API} (opts : list Option) (g : Group)
  : option Group :=
  match opts with
  | [] => Some g
  | opt :: rest =>
      match opt g with
      | None => None
      | Some g' => apply_opts rest g'
      end
  end.

(** [func New(ctx context.Context, mode FailureMode, opts ...Option)
    (context.Context, *Group)]: the parameter [ctx] is shadowed by the
    derived context, which is the one handed to [retry.Context] and the one
    returned. *)
Definition New `{retry.API} (ctx : context.Context) (mode : FailureMode)
    (opts : list Option) : option (context.Context * Group) :=
  let ctx := context.WithCancel ctx in
  let g := {| cancel := Some cancelCtx; err := None; errOnce := false;
              errLock := false; wg := 0; sem := None; failureMode := mode;
              retryOptions := [retry.Attempts 1; retry.LastErrorOnly true;
                               retry.Context ctx] |} in
  match apply_opts opts g with
  | None => None
  | Some g' => Some (ctx, g')
  end.

(** [New] with its argument [ctx] as the interface value that it is: the
    first statement, [context.WithCancel(ctx)], panics on the nil interface
    ("cannot create context from nil parent"), before any option is
    applied. *)
Definition New_ctx `{retry.API} (ctx : option context.Context)
    (mode : FailureMode) (opts : list Option)
  : option (context.Context * Group) :=
  match ctx with
  | None => None
  | Some parent => New parent mode opts
  end.

End workgroup_go.

(** The options a caller can pass: the fields of the group are not
    exported, so an option is made by [WithLimit] or by [WithRetry]. *)
Inductive option_call `{retry.API} :=
| call_WithLimit (n : Z)
| call_WithRetry (opts : list retry.Option).

Definition option_of `{retry.API} (c : option_call) : workgroup_go.Option :=
  match c with
  | call_WithLimit n => workgroup_go.WithLimit n
  | call_WithRetry opts => workgroup_go.WithRetry opts
  end.

(** The arguments of the calls of [WithLimit], in order. *)
Fixpoint limits `{retry.API} (cs : list option_call) : list Z :=
  match cs with
  | [] => []
  | call_WithLimit n :: rest => n :: limits rest
  | call_WithRetry _ :: rest => limits rest
  end.

(** The arguments of the calls of [WithRetry], in order, one after the
    other. *)
Fixpoint retries `{retry.API} (cs : list option_call) : list retry.Option :=
  match cs with
  | [] => []
  | call_WithLimit _ :: rest => retries rest
  | call_WithRetry opts :: rest => opts ++ retries rest
  end.

(** The group of [workgroup.go] without its retry policy. *)
Definition forget `{retry.API} (g : workgroup_go.Group) : Group :=
  {| cancel := workgroup_go.cancel g; wg := workgroup_go.wg g;
     err := workgroup_go.err g; errLock := workgroup_go.errLock g;
     errOnce := workgroup_go.errOnce g; sem := workgroup_go.sem g;
     failureMode := workgroup_go.failureMode g |}.

(** Options of retry-go by their printed form, to evaluate examples. *)
#[local] Instance sample_retry : retry.API := {|
  retry.Option := string;
  retry.Attempts := fun n => if n =? 1 then "Attempts(1)"%string else "Attempts(n)"%string;
  retry.LastErrorOnly := fun b => if b then "LastErrorOnly(true)"%string else "LastErrorOnly(false)"%string;
  retry.Context := fun c =>
    match c with
    | context.WithCancel _ => "Context(derived)"%string
    | context.root _ => "Context(root)"%string
    end
|}.
(** ** Tactics *)

Ltac bool_facts :=
  repeat match goal with
    | H : (_ <? _) = true |- _ => apply Z.ltb_lt in H
    | H : (_ <? _) = false |- _ => apply Z.ltb_ge in H
    | H : (_ =? _) = true |- _ => apply Z.eqb_eq in H
    | H : (_ =? _) = false |- _ => apply Z.eqb_neq in H
    end.

Ltac split_matches H :=
  repeat match type of H with
    | context [match ?x with _ => _ end] => destruct x eqn:?
    end.

Ltac case_Step Hstep :=
  match type of Hstep with
  | step (Step ?i) ?s = Next _ =>
      simpl in Hstep;
      destruct (threads s !! i) as [[]|] eqn:?Hi; simpl in Hstep;
      unfold errOnce_Do, first_error, collect_error, Cancel in Hstep;
      simpl in Hstep; split_matches Hstep; try discriminate;
      injection Hstep as <-; bool_facts
  end.

Ltac case_Return Hstep :=
  match type of Hstep with
  | step (Return ?i _) ?s = Next _ =>
      simpl in Hstep;
      destruct (threads s !! i) as [[]|] eqn:?Hi; try discriminate;
      injection Hstep as <-
  end.

Ltac case_Handoff Hstep :=
  simpl in Hstep; split_matches Hstep; try discriminate;
  injection Hstep as <-; bool_facts.

Ltac step_cases Hstep :=
  match type of Hstep with
  | step ?a ?s = Next _ =>
      destruct a as [?m|?i|?i ?r|?i ?j|];
      [ injection Hstep as <-
      | case_Step Hstep
      | case_Return Hstep
      | case_Handoff Hstep
      | injection Hstep as <- ]
  end.

(** ** Lemmas on errors *)

Lemma same_refl (e : error) : same e e = true.
Proof. destruct e; simpl; apply Nat.eqb_refl. Qed.




Lemma Join_not_nil (p : addr) (old : option error) (e : error) :
  Join p [old; Some e] <> None.
Proof. destruct old; discriminate. Qed.

Lemma Is_Join_old (p : addr) (old : option error) (e t : error) :
  Is old (Some t) = true -> Is (Join p [old; Some e]) (Some t) = true.
Proof.
  destruct old as [o|]; simpl; [|discriminate].
  intros H. rewrite H. simpl. apply orb_true_r.
Qed.

Lemma Is_Join_new (p : addr) (old : option error) (e t : error) :
  Is (Some e) (Some t) = true -> Is (Join p [old; Some e]) (Some t) = true.
Proof.
  simpl. intros H. destruct old as [o|]; simpl; rewrite H; simpl;
    rewrite ?orb_true_r; reflexivity.
Qed.

(** ** Lemmas on the thread pool *)

Lemma count_nonneg (f : pc -> bool) (ts : list pc) : 0 <= count f ts.
Proof. induction ts as [|p ts IH]; simpl; [lia|]. destruct (f p); simpl; lia. Qed.

Lemma count_app (f : pc -> bool) (ts us : list pc) :
  count f (ts ++ us) = count f ts + count f us.
Proof. induction ts as [|p ts IH]; simpl; [reflexivity|]. rewrite IH. lia. Qed.

Lemma count_insert (f : pc -> bool) (ts : list pc) (i : nat) (p q : pc) :
  ts !! i = Some p ->
  count f (<[i:=q]> ts) = count f ts - Z.b2z (f p) + Z.b2z (f q).
Proof.
  revert i. induction ts as [|x ts IH]; intros [|i] H; simpl in *;
    try discriminate.
  - injection H as ->. lia.
  - rewrite (IH i H). lia.
Qed.

Lemma count_lookup (f : pc -> bool) (ts : list pc) (i : nat) (p : pc) :
  ts !! i = Some p -> f p = true -> 1 <= count f ts.
Proof.
  revert i. induction ts as [|x ts IH]; intros [|i] H Hf; simpl in *;
    try discriminate.
  - injection H as ->. rewrite Hf. pose proof (count_nonneg f ts). simpl. lia.
  - pose proof (IH i H Hf). destruct (f x); simpl; lia.
Qed.

Lemma count_zero (f : pc -> bool) (ts : list pc) (i : nat) (p : pc) :
  count f ts = 0 -> ts !! i = Some p -> f p = false.
Proof.
  intros H0 Hi. destruct (f p) eqn:Hf; [|reflexivity].
  pose proof (count_lookup f ts i p Hi Hf). lia.
Qed.

Lemma count_le (f g : pc -> bool) (ts : list pc) :
  (forall p, f p = true -> g p = true) -> count f ts <= count g ts.
Proof.
  intros Hfg. induction ts as [|p ts IH]; simpl; [lia|].
  specialize (Hfg p). destruct (f p), (g p); simpl; try lia.
Qed.

Lemma count_le_add (f g h : pc -> bool) (ts : list pc) :
  (forall p, f p = true -> g p = true \/ h p = true) ->
  count f ts <= count g ts + count h ts.
Proof.
  intros Hf. induction ts as [|p ts IH]; simpl; [lia|].
  specialize (Hf p). destruct (f p), (g p), (h p); simpl; lia.
Qed.

Lemma count_replicate (f : pc -> bool) (n : nat) (p : pc) :
  count f (replicate n p) = Z.b2z (f p) * Z.of_nat n.
Proof. induction n as [|n IH]; simpl count; [lia|]. rewrite IH. lia. Qed.

Lemma lookup_snoc (ts : list pc) (p : pc) : (ts ++ [p]) !! length ts = Some p.
Proof. induction ts as [|x ts IH]; simpl; auto. Qed.

Lemma insert_snoc (ts : list pc) (p q : pc) :
  <[length ts:=q]> (ts ++ [p]) = ts ++ [q].
Proof. induction ts as [|x ts IH]; simpl; [reflexivity|]. f_equal. exact IH. Qed.

(** ** The constructor *)

Lemma apply_opts_fields (ns : list Z) (g g' : Group) :
  apply_opts (map WithLimit ns) g = Some g' ->
  cancel g' = cancel g /\ wg g' = wg g /\ err g' = err g /\
  errLock g' = errLock g /\ errOnce g' = errOnce g /\
  failureMode g' = failureMode g /\
  (forall c, sem g' = Some c -> qcount c = 0 /\ 0 <= cap c \/ sem g = Some c).
Proof.
  revert g. induction ns as [|n ns IH]; intros g H.
  - injection H as <-. repeat split; auto.
  - simpl in H. unfold WithLimit at 1, make_chan in H.
    destruct (n <? 0) eqn:Hn; [discriminate|].
    apply IH in H. simpl in H.
    destruct H as (-> & -> & -> & -> & -> & -> & Hs).
    repeat split; auto. intros c Hc. destruct (Hs c Hc) as [?|Hc']; [auto|].
    injection Hc' as <-. simpl. left. lia.
Qed.

Lemma apply_opts_sem (ns : list Z) (g g' : Group) :
  apply_opts (map WithLimit ns) g = Some g' ->
  sem g' = match last ns with
           | Some k => Some {| cap := k; qcount := 0 |}
           | None => sem g
           end.
Proof.
  revert g. induction ns as [|n ns IH]; intros g H.
  - injection H as <-. reflexivity.
  - simpl in H. unfold WithLimit at 1, make_chan in H.
    destruct (n <? 0); [discriminate|].
    apply IH in H. rewrite H. destruct ns as [|m ns]; [reflexivity|].
    rewrite last_cons_cons.
    destruct (last (m :: ns)) eqn:E; [reflexivity|].
    apply last_None in E. discriminate.
Qed.

Lemma New_fields (pd : bool) (mode : FailureMode) (ns : list Z) (s0 : State) :
  New pd mode (map WithLimit ns) = Some s0 ->
  threads s0 = [] /\ parent s0 = pd /\ ctx s0 = pd /\
  cancel (grp s0) = Some cancelCtx /\ wg (grp s0) = 0 /\
  err (grp s0) = None /\ errLock (grp s0) = false /\
  errOnce (grp s0) = false /\ failureMode (grp s0) = mode /\
  (forall c, sem (grp s0) = Some c -> qcount c = 0 /\ 0 <= cap c).
Proof.
  unfold New. intros H.
  destruct (apply_opts _ _) as [g'|] eqn:Hg; [|discriminate].
  injection H as <-. simpl.
  apply apply_opts_fields in Hg. simpl in Hg.
  destruct Hg as (-> & -> & -> & -> & -> & -> & Hs).
  repeat split; auto;
    match goal with
    | Hc : sem _ = Some ?c |- _ =>
        destruct (Hs c Hc) as [[? ?]|?]; [assumption|discriminate]
    end.
Qed.

Lemma New_sem (pd : bool) (mode : FailureMode) (ns : list Z) (s0 : State) :
  New pd mode (map WithLimit ns) = Some s0 ->
  sem (grp s0) = option_map (fun k => {| cap := k; qcount := 0 |}) (last ns).
Proof.
  unfold New. intros H.
  destruct (apply_opts _ _) as [g'|] eqn:Hg; [|discriminate].
  injection H as <-. simpl. rewrite (apply_opts_sem _ _ _ Hg).
  destruct (last ns); reflexivity.
Qed.

(** ** The invariant holds in every reachable state *)

Lemma Inv_New (pd : bool) (mode : FailureMode) (ns : list Z) (s0 : State) :
  New pd mode (map WithLimit ns) = Some s0 -> Inv s0.
Proof.
  intros H. apply New_fields in H.
  destruct H as (Ht & _ & _ & _ & Hw & He & Hl & Ho & _ & Hs).
  split; rewrite ?Ht, ?Hw, ?He, ?Hl, ?Ho; simpl; try congruence; auto.
  intros c0 Hc0. destruct (Hs c0 Hc0). lia.
Qed.

Lemma Inv_step a s s' : Inv s -> step a s = Next s' -> Inv s'.
Proof.
  intros [Hwg Hsem Hlock Herr Honce Hlatch Hcol] Hstep.
  destruct a as [m|i|i r|i j|]; simpl in Hstep.
  - injection Hstep as <-.
    split; simpl; rewrite ?count_app; auto.
    all: try (destruct m; simpl; lia).
    + intros c Hc. destruct (Hsem c Hc). destruct m; simpl; lia.
    + destruct (err (grp s)); destruct m; simpl; lia.
    + intros Hm. apply Forall_app. split; [auto|].
      constructor; [|constructor]. destruct m; simpl; discriminate.
  - destruct (threads s !! i) as [p|] eqn:Hi; [|discriminate].
    destruct p; simpl in Hstep;
      unfold errOnce_Do, first_error, collect_error, Cancel in Hstep;
      simpl in Hstep; split_matches Hstep; try discriminate;
      injection Hstep as <-; bool_facts.
    all: split; simpl; rewrite ?(count_insert _ _ _ _ _ Hi); simpl.
    all: try assumption.
    all: try (simpl in *; lia).
    all: try congruence.
    all: try (intros c0 Hc0; try (injection Hc0 as <-; simpl);
              first [ destruct (Hsem _ eq_refl); lia
                    | destruct (Hsem _ Hc0); lia ]).
    all: try (destruct (err (grp _)); try destruct r; simpl; lia).
    all: try (intros Hm; first [specialize (Hcol Hm) | specialize (Hcol eq_refl)];
              pose proof (Forall_lookup_1 _ _ _ _ Hcol Hi) as Hp; simpl in Hp;
              apply Forall_insert; [assumption | simpl; auto; discriminate]).
    + intros _. apply Join_not_nil.
    + intros Hm. specialize (Hcol eq_refl). apply Forall_insert.
      * eapply Forall_impl; [exact Hcol|]. simpl. intros p Hp e0 t He0 Ht.
        apply Is_Join_old. eauto.
      * simpl. intros e0 t [= <-] Ht. apply Is_Join_new. exact Ht.
    + destruct (err (grp s)); [lia|]. exfalso. apply Honce; reflexivity.
    + auto.
  - destruct (threads s !! i) as [p|] eqn:Hi; [|discriminate].
    destruct p; try discriminate. injection Hstep as <-.
    split; simpl; rewrite ?(count_insert _ _ _ _ _ Hi); simpl; try assumption.
    all: try (destruct r; simpl; lia).
    + intros c Hc. destruct (Hsem c Hc). destruct r; simpl; lia.
    + destruct (err (grp s)); destruct r; simpl; lia.
    + intros Hm. apply Forall_insert; [auto|]. destruct r; simpl; discriminate.
  - split_matches Hstep; try discriminate. bool_facts. exfalso.
    destruct (Hsem _ eq_refl) as [Hq Hc].
    match goal with
    | H : threads s !! j = Some (Task_done_sem _) |- _ =>
        pose proof (count_lookup holds _ _ _ H eq_refl)
    end. lia.
  - injection Hstep as <-. split; simpl; assumption.
Qed.

Lemma Inv_run (acts : list action) (s s' : State) :
  Inv s -> run acts s = Some s' -> Inv s'.
Proof.
  revert s. induction acts as [|a acts IH]; intros s HI Hr; simpl in Hr.
  - injection Hr as <-. exact HI.
  - destruct (step a s) as [s1| | |] eqn:Hs; try discriminate.
    eapply IH; [|exact Hr]. eapply Inv_step; eassumption.
Qed.

Lemma Inv_reachable (pd : bool) (mode : FailureMode) (ns : list Z)
    (s0 s : State) :
  New pd mode (map WithLimit ns) = Some s0 -> reachable s0 s -> Inv s.
Proof.
  intros HN [acts Hr]. eapply Inv_run; [|exact Hr]. eapply Inv_New, HN.
Qed.

(** The runtime never panics: [Unlock] is only called on the locked mutex
    and [Done] only on a positive counter. *)
Lemma Inv_no_panic (a : action) (s : State) : Inv s -> step a s <> Panic.
Proof.
  intros HI. destruct a as [m|i|i r|i j|]; simpl; try discriminate.
  - destruct (threads s !! i) as [p|] eqn:Hi; [|discriminate].
    destruct p; simpl; try discriminate.
    + destruct (sem (grp s)) as [c|]; [|discriminate].
      destruct (qcount c <? cap c); discriminate.
    + destruct (errLock (grp s)); discriminate.
    + destruct (failureMode (grp s)); discriminate.
    + pose proof (count_lookup critical _ _ _ Hi eq_refl) as Hc.
      rewrite <- (inv_lock _ HI) in Hc.
      destruct (errLock (grp s)); [discriminate|simpl in Hc; lia].
    + destruct (sem (grp s)) as [c|]; [|discriminate].
      destruct (0 <? qcount c); discriminate.
    + pose proof (count_lookup outstanding _ _ _ Hi eq_refl) as Hc.
      rewrite <- (inv_wg _ HI) in Hc.
      destruct (wg (grp s) - 1 <? 0) eqn:Hw; [|discriminate].
      apply Z.ltb_lt in Hw. lia.
    + destruct (wg (grp s) =? 0); discriminate.
  - destruct (threads s !! i) as [[]|]; discriminate.
  - destruct (sem (grp s)) as [c|]; [|discriminate].
    destruct (threads s !! i) as [[]|]; try discriminate.
    destruct (threads s !! j) as [[]|]; try discriminate.
    destruct (cap c =? 0); discriminate.
Qed.

(** A goroutine that holds capacity is never blocked at the receive in
    [done], and one that is counted is never refused by [Done]. *)
Lemma Inv_done_runs (s : State) (i : nat) (r : option error) :
  Inv s -> threads s !! i = Some (Task_done_sem r) ->
  exists s', step (Step i) s = Next s'.
Proof.
  intros HI Hi. simpl. rewrite Hi. simpl.
  destruct (sem (grp s)) as [c|] eqn:Hs; [|eauto].
  destruct (inv_sem _ HI c Hs) as [Hq _].
  pose proof (count_lookup holds _ _ _ Hi eq_refl) as Hc.
  destruct (0 <? qcount c) eqn:Hlt; [eauto|].
  apply Z.ltb_ge in Hlt. lia.
Qed.

(** ** What a step leaves alone *)

(** The failure mode, the cancel function and the capacity of the channel
    are fixed at creation. *)
Lemma step_config (a : action) (s s' : State) :
  step a s = Next s' ->
  failureMode (grp s') = failureMode (grp s) /\
  cancel (grp s') = cancel (grp s) /\
  option_map cap (sem (grp s')) = option_map cap (sem (grp s)).
Proof.
  intros Hstep. step_cases Hstep; simpl; repeat split; try reflexivity;
    try congruence;
    match goal with
    | H : sem _ = _ |- _ => rewrite H; reflexivity
    end.
Qed.

Lemma run_config (acts : list action) (s s' : State) :
  run acts s = Some s' ->
  failureMode (grp s') = failureMode (grp s) /\
  cancel (grp s') = cancel (grp s) /\
  option_map cap (sem (grp s')) = option_map cap (sem (grp s)).
Proof.
  revert s. induction acts as [|a acts IH]; intros s Hr; simpl in Hr.
  - injection Hr as <-. auto.
  - destruct (step a s) as [s1| | |] eqn:Hs; try discriminate.
    destruct (step_config _ _ _ Hs) as (<- & <- & <-). exact (IH _ Hr).
Qed.

(** A done context stays done. *)
Lemma step_ctx (a : action) (s s' : State) :
  step a s = Next s' -> ctx s = true -> ctx s' = true.
Proof.
  intros Hstep Hc. step_cases Hstep; simpl; auto.
Qed.

Lemma run_ctx (acts : list action) (s s' : State) :
  run acts s = Some s' -> ctx s = true -> ctx s' = true.
Proof.
  revert s. induction acts as [|a acts IH]; intros s Hr Hc; simpl in Hr.
  - injection Hr as <-. exact Hc.
  - destruct (step a s) as [s1| | |] eqn:Hs; try discriminate.
    eapply IH; [exact Hr|]. eapply step_ctx; eassumption.
Qed.

(** A step moves only the goroutines it names. *)
Lemma step_frame (a : action) (s s' : State) (i : nat) (p : pc) :
  step a s = Next s' -> threads s !! i = Some p -> ~ moves a i ->
  threads s' !! i = Some p.
Proof.
  intros Hstep Hp Hm. step_cases Hstep; simpl in *;
    rewrite ?list_lookup_insert_ne by tauto; try assumption.
  rewrite lookup_app_l; [assumption|]. eapply lookup_lt_Some; eassumption.
Qed.

Lemma moves_dec (a : action) (i : nat) : {moves a i} + {~ moves a i}.
Proof.
  destruct a as [m|j|j r|j k|]; simpl; try (right; tauto);
    try apply Nat.eq_dec.
  destruct (Nat.eq_dec j i); [left; tauto|].
  destruct (Nat.eq_dec k i); [left; tauto|right; tauto].
Qed.



Lemma run_app (acts1 acts2 : list action) (s : State) :
  run (acts1 ++ acts2) s =
  match run acts1 s with
  | Some s1 => run acts2 s1
  | None => None
  end.
Proof.
  revert s. induction acts1 as [|a acts1 IH]; intros s; simpl; [reflexivity|].
  destruct (step a s); auto.
Qed.

Lemma reachable_trans (s0 s1 s2 : State) :
  reachable s0 s1 -> reachable s1 s2 -> reachable s0 s2.
Proof.
  intros [a1 H1] [a2 H2]. exists (a1 ++ a2). rewrite run_app, H1. exact H2.
Qed.

(** The shape of a rendezvous on an unbuffered channel. *)
Lemma step_Handoff (i j : nat) (s s' : State) :
  step (Handoff i j) s = Next s' ->
  exists c r,
    sem (grp s) = Some c /\ cap c = 0 /\
    threads s !! i = Some Go_add_sem /\
    threads s !! j = Some (Task_done_sem r) /\
    s' = goto j (Task_done_wg r) (goto i Go_add_wg s) /\
    forall f, count f (threads s') =
      count f (threads s) - Z.b2z (f Go_add_sem) + Z.b2z (f Go_add_wg)
      - Z.b2z (f (Task_done_sem r)) + Z.b2z (f (Task_done_wg r)).
Proof.
  intros Hstep. simpl in Hstep.
  destruct (sem (grp s)) as [c|]; [|discriminate].
  destruct (threads s !! i) as [[]|] eqn:Hi; try discriminate.
  destruct (threads s !! j) as [[]|] eqn:Hj; try discriminate.
  destruct (cap c =? 0) eqn:Hc; [|discriminate].
  injection Hstep as <-. apply Z.eqb_eq in Hc.
  exists c, r. repeat split; auto.
  intros f. simpl.
  assert (Hne : i <> j) by congruence.
  rewrite (count_insert f _ j (Task_done_sem r)).
  - rewrite (count_insert f _ i Go_add_sem Go_add_wg Hi). lia.
  - rewrite list_lookup_insert_ne by exact Hne. exact Hj.
Qed.

(** ** What only grows *)

Lemma step_latched (a : action) (s s' : State) :
  failureMode (grp s) = FailFast -> errOnce (grp s) = true ->
  step a s = Next s' ->
  errOnce (grp s') = true /\ err (grp s') = err (grp s).
Proof.
  intros Hm Ho Hstep. step_cases Hstep; simpl; auto; congruence.
Qed.








(** With no call of [Go] under way and no task outstanding, nothing but a
    call of [Go] changes the tasks or the error slot. *)
Lemma step_quiet (a : action) (s s' : State) :
  is_Call_Go a = false ->
  count submitting (threads s) = 0 -> count outstanding (threads s) = 0 ->
  step a s = Next s' ->
  count submitting (threads s') = 0 /\ count outstanding (threads s') = 0 /\
  count has_failed (threads s') = count has_failed (threads s) /\
  err (grp s') = err (grp s).
Proof.
  intros Ha Hsub Hout Hstep.
  assert (Hzs : forall i p, threads s !! i = Some p -> submitting p = false)
    by (intros i p; apply count_zero; exact Hsub).
  assert (Hzo : forall i p, threads s !! i = Some p -> outstanding p = false)
    by (intros i p; apply count_zero; exact Hout).
  destruct a as [m|i|i r|i j|]; simpl in Hstep.
  - injection Hstep as <-. destruct m; try discriminate Ha;
      simpl; rewrite ?count_app; simpl; repeat split; lia.
  - destruct (threads s !! i) as [p|] eqn:Hi; [|discriminate].
    pose proof (Hzs i p Hi) as Hp1. pose proof (Hzo i p Hi) as Hp2.
    destruct p; try discriminate Hp1; try discriminate Hp2;
      simpl in Hstep; unfold Cancel in Hstep;
      simpl in Hstep; split_matches Hstep;
      try discriminate; injection Hstep as <-; simpl;
      rewrite ?(count_insert _ _ _ _ _ Hi); simpl; repeat split; lia.
  - destruct (threads s !! i) as [p|] eqn:Hi; [|discriminate].
    pose proof (Hzo i p Hi) as Hp. destruct p; discriminate.
  - destruct (sem (grp s)); [|discriminate].
    destruct (threads s !! i) as [p|] eqn:Hi; [|discriminate].
    pose proof (Hzs i p Hi) as Hp. destruct p; discriminate.
  - injection Hstep as <-. simpl. auto.
Qed.

Lemma run_quiet (acts : list action) (s s' : State) :
  forallb (fun a => negb (is_Call_Go a)) acts = true ->
  count submitting (threads s) = 0 -> count outstanding (threads s) = 0 ->
  run acts s = Some s' ->
  count submitting (threads s') = 0 /\ count outstanding (threads s') = 0 /\
  count has_failed (threads s') = count has_failed (threads s) /\
  err (grp s') = err (grp s).
Proof.
  revert s. induction acts as [|a acts IH]; intros s Ha Hsub Hout Hr;
    simpl in Hr.
  - injection Hr as <-. auto.
  - simpl in Ha. apply andb_true_iff in Ha. destruct Ha as [Ha Hrest].
    apply negb_true_iff in Ha.
    destruct (step a s) as [s1| | |] eqn:Hs; try discriminate.
    destruct (step_quiet _ _ _ Ha Hsub Hout Hs) as (H1 & H2 & H3 & H4).
    destruct (IH s1 Hrest H1 H2 Hr) as (H5 & H6 & H7 & H8).
    repeat split; congruence.
Qed.

(** ** The statements of Wait and Cancel *)

(** Once the counter is zero the three statements of [Wait] run through:
    it cancels the context and returns the error slot. *)
Lemma Wait_runs (s : State) (i : nat) :
  threads s !! i = Some Wait_wg -> wg (grp s) = 0 ->
  exists s', run [Step i; Step i; Step i] s = Some s' /\
    threads s' !! i = Some (Wait_returned (err (grp s))) /\
    (cancel (grp s) <> None -> ctx s' = true).
Proof.
  intros Hi Hw.
  pose proof (lookup_lt_Some _ _ _ Hi) as Hlt.
  set (s1 := goto i Wait_Cancel s).
  set (s2 := goto i Wait_return (Cancel s1)).
  exists (goto i (Wait_returned (err (grp s))) s2).
  assert (Hlt1 : (i < length (threads (Cancel s1)))%nat).
  { unfold Cancel. destruct (cancel _) as [[]|]; simpl;
      rewrite length_insert; exact Hlt. }
  assert (He : err (grp (Cancel s1)) = err (grp s)).
  { unfold Cancel. destruct (cancel _) as [[]|]; reflexivity. }
  assert (H1 : step (Step i) s = Next s1).
  { simpl. rewrite Hi. simpl. rewrite Hw. reflexivity. }
  assert (H2 : step (Step i) s1 = Next s2).
  { simpl. rewrite list_lookup_insert_eq by exact Hlt. reflexivity. }
  assert (H3 : step (Step i) s2 =
               Next (goto i (Wait_returned (err (grp s))) s2)).
  { simpl. rewrite list_lookup_insert_eq by exact Hlt1. simpl.
    rewrite He. reflexivity. }
  split; [|split].
  - cbn [run]. rewrite H1, H2, H3. reflexivity.
  - simpl. apply list_lookup_insert_eq. rewrite length_insert. exact Hlt1.
  - intros Hc. simpl. unfold Cancel. simpl.
    destruct (cancel (grp s)) as [[]|]; [reflexivity|contradiction].
Qed.




Lemma Cancel_twice (s : State) : Cancel (Cancel s) = Cancel s.
Proof.
  unfold Cancel. destruct (cancel (grp s)) as [[]|] eqn:H; simpl; rewrite H;
    reflexivity.
Qed.

Lemma Cancel_done (s : State) : ctx s = true -> Cancel s = s.
Proof.
  intros H. unfold Cancel. destruct (cancel (grp s)) as [[]|]; [|reflexivity].
  destruct s; simpl in *; subst; reflexivity.
Qed.

Lemma Cancel_iter (n : nat) (s : State) : Nat.iter (S n) Cancel s = Cancel s.
Proof.
  induction n as [|n IH]; [reflexivity|].
  change (Nat.iter (S (S n)) Cancel s) with (Cancel (Nat.iter (S n) Cancel s)).
  rewrite IH. apply Cancel_twice.
Qed.

(** ** The channel *)

(** Without a channel a call of [Go] runs through. *)
Lemma Go_unlimited (s : State) :
  sem (grp s) = None ->
  exists s', run (Go_uninterrupted (length (threads s))) s = Some s' /\
    threads s' = threads s ++ [Task_fn] /\ sem (grp s') = None.
Proof.
  intros Hs. unfold Go_uninterrupted.
  destruct s as [g pa cx h ts]. simpl in Hs |- *.
  rewrite lookup_snoc. simpl. rewrite Hs.
  unfold goto. simpl. rewrite insert_snoc, lookup_snoc. simpl.
  unfold goto. simpl. rewrite insert_snoc, lookup_snoc. simpl.
  unfold goto. simpl. rewrite insert_snoc.
  eexists. split; [reflexivity|]. simpl. auto.
Qed.

Lemma Go_unlimited_many (n : nat) (s : State) :
  sem (grp s) = None ->
  exists s', reachable s s' /\
    threads s' = threads s ++ replicate n Task_fn /\ sem (grp s') = None.
Proof.
  revert s. induction n as [|n IH]; intros s Hs.
  - exists s. split; [exists []; reflexivity|]. simpl. rewrite app_nil_r. auto.
  - destruct (Go_unlimited s Hs) as (s1 & Hr1 & Ht1 & Hs1).
    destruct (IH s1 Hs1) as (s2 & Hr2 & Ht2 & Hs2).
    exists s2. split; [|split; [|exact Hs2]].
    + eapply reachable_trans; [eexists; exact Hr1|exact Hr2].
    + rewrite Ht2, Ht1, <- app_assoc. reflexivity.
Qed.

(** The channel in a reachable state. *)
Lemma limit_config (pd : bool) (mode : FailureMode) (ns : list Z)
    (s0 s : State) :
  New pd mode (map WithLimit ns) = Some s0 -> reachable s0 s ->
  (forall k, last ns = Some k ->
     sem (grp s) = Some {| cap := k; qcount := count holds (threads s) |} /\
     count holds (threads s) <= k) /\
  (ns = [] -> sem (grp s) = None).
Proof.
  intros HN Hreach.
  pose proof (Inv_reachable _ _ _ _ _ HN Hreach) as HI.
  destruct Hreach as [acts0 Hr0].
  destruct (run_config _ _ _ Hr0) as (_ & _ & Hcap).
  rewrite (New_sem _ _ _ _ HN) in Hcap.
  split.
  - intros k Hk. rewrite Hk in Hcap. simpl in Hcap.
    destruct (sem (grp s)) as [c|] eqn:Hs; [|discriminate].
    destruct (inv_sem _ HI c Hs) as [Hq Hle].
    injection Hcap as Hcap. destruct c as [cp q]. simpl in *. subst cp q.
    split; [reflexivity|exact Hle].
  - intros ->. simpl in Hcap.
    destruct (sem (grp s)) as [c|] eqn:Hs; [discriminate|reflexivity].
Qed.

Lemma limit_zero_step (a : action) (s s' : State) :
  sem (grp s) = Some {| cap := 0; qcount := 0 |} ->
  count started (threads s) = 0 ->
  step a s = Next s' ->
  sem (grp s') = Some {| cap := 0; qcount := 0 |} /\
  count started (threads s') = 0.
Proof.
  intros Hs Hc Hstep.
  assert (Hz : forall i p, threads s !! i = Some p -> started p = false)
    by (intros i p; apply count_zero; exact Hc).
  destruct a as [m|i|i r|i j|]; simpl in Hstep.
  - injection Hstep as <-. simpl. rewrite count_app. simpl.
    split; [exact Hs|]. destruct m; simpl; lia.
  - destruct (threads s !! i) as [p|] eqn:Hi; [|discriminate].
    pose proof (Hz i p Hi) as Hp.
    destruct p; try discriminate Hp; simpl in Hstep; unfold Cancel in Hstep;
      rewrite ?Hs in Hstep; simpl in Hstep; split_matches Hstep;
      try discriminate; injection Hstep as <-; simpl;
      rewrite (count_insert _ _ _ _ _ Hi); simpl; (split; [exact Hs|lia]).
  - destruct (threads s !! i) as [p|] eqn:Hi; [|discriminate].
    pose proof (Hz i p Hi) as Hp. destruct p; discriminate.
  - rewrite Hs in Hstep.
    destruct (threads s !! i) as [p|] eqn:Hi; [|discriminate].
    destruct p; try discriminate.
    destruct (threads s !! j) as [q|] eqn:Hj; [|discriminate].
    pose proof (Hz j q Hj) as Hq. destruct q; discriminate.
  - injection Hstep as <-. simpl. auto.
Qed.

Lemma limit_zero_run (acts : list action) (s s' : State) :
  sem (grp s) = Some {| cap := 0; qcount := 0 |} ->
  count started (threads s) = 0 ->
  run acts s = Some s' ->
  sem (grp s') = Some {| cap := 0; qcount := 0 |} /\
  count started (threads s') = 0.
Proof.
  revert s. induction acts as [|a acts IH]; intros s Hs Hc Hr; simpl in Hr.
  - injection Hr as <-. auto.
  - destruct (step a s) as [s1| | |] eqn:Hst; try discriminate.
    destruct (limit_zero_step _ _ _ Hs Hc Hst) as [Hs1 Hc1].
    exact (IH _ Hs1 Hc1 Hr).
Qed.

(** ** A group without tasks *)

Lemma Idle_New (pd : bool) (mode : FailureMode) (ns : list Z) (s0 : State) :
  New pd mode (map WithLimit ns) = Some s0 -> Idle s0.
Proof.
  intros H. apply New_fields in H.
  destruct H as (Ht & _ & _ & _ & Hw & He & _).
  split; rewrite ?Ht; auto.
Qed.

Lemma Idle_step (a : action) (s s' : State) :
  is_Call_Go a = false -> Idle s -> step a s = Next s' -> Idle s'.
Proof.
  intros Ha [Ht Hr Hw He] Hstep.
  assert (Hz : forall i p, threads s !! i = Some p -> of_Go p = false)
    by (intros i p; apply count_zero; exact Ht).
  destruct a as [m|i|i r|i j|]; simpl in Hstep.
  - injection Hstep as <-. destruct m; try discriminate Ha;
      split; simpl; rewrite ?count_app; simpl; auto; lia.
  - destruct (threads s !! i) as [p|] eqn:Hi; [|discriminate].
    pose proof (Hz i p Hi) as Hp.
    destruct p; try discriminate Hp; simpl in Hstep; unfold Cancel in Hstep;
      simpl in Hstep; split_matches Hstep;
      try discriminate; injection Hstep as <-; split; simpl;
      rewrite ?(count_insert _ _ _ _ _ Hi); rewrite ?He; simpl; auto; lia.
  - destruct (threads s !! i) as [p|] eqn:Hi; [|discriminate].
    pose proof (Hz i p Hi) as Hp. destruct p; discriminate.
  - destruct (sem (grp s)); [|discriminate].
    destruct (threads s !! i) as [p|] eqn:Hi; [|discriminate].
    pose proof (Hz i p Hi) as Hp. destruct p; discriminate.
  - injection Hstep as <-. split; simpl; auto.
Qed.

Lemma Idle_run (acts : list action) (s s' : State) :
  forallb (fun a => negb (is_Call_Go a)) acts = true ->
  Idle s -> run acts s = Some s' -> Idle s'.
Proof.
  revert s. induction acts as [|a acts IH]; intros s Ha HI Hr; simpl in Hr.
  - injection Hr as <-. exact HI.
  - simpl in Ha. apply andb_true_iff in Ha. destruct Ha as [Ha Hrest].
    apply negb_true_iff in Ha.
    destruct (step a s) as [s1| | |] eqn:Hst; try discriminate.
    eapply IH; [exact Hrest| |exact Hr]. eapply Idle_step; eassumption.
Qed.

(** ** Collect mode *)




(** ** FailFast mode *)



(** ** Cancellation of the derived context *)

(** The context returned by [New] comes from [context.WithCancel(ctx)], so
    it is done as soon as the parent context is: with no goroutine inside
    any method of the group (no [Cancel], no task, no [Wait]) the derived
    context goes from not done to done.  So it is not true that only the
    statements of the group that call the cancel function do that. *)
Lemma parent_cancel_counterexample :
  let s0 := after Collect [] [] in
  let s1 := after Collect [] [ParentCancel] in
  (New false Collect [] = Some s0 /\ threads s0 = [] /\
   step ParentCancel s0 = Next s1 /\
   ctx s0 = false /\ ctx s1 = true /\
   forall i, calls_cancel s0 i = false) /\
  ~ (forall a s s', step a s = Next s' -> ctx s = false -> ctx s' = true ->
       exists i, a = Step i /\ calls_cancel s i = true).
Proof.
  intros s0 s1.
  assert (Hs : step ParentCancel s0 = Next s1) by (vm_compute; reflexivity).
  assert (H0 : ctx s0 = false) by (vm_compute; reflexivity).
  assert (H1 : ctx s1 = true) by (vm_compute; reflexivity).
  split.
  - split; [vm_compute; reflexivity|]. split; [vm_compute; reflexivity|].
    split; [exact Hs|]. split; [exact H0|]. split; [exact H1|].
    intros i. vm_compute. reflexivity.
  - intros Hall. destruct (Hall ParentCancel s0 s1 Hs H0 H1) as (i & Hi & _).
    discriminate Hi.
Qed.

(** C3, amended.  A step takes the derived context from not done to done
    only if it is the cancellation of the parent context or one of the three
    statements of the group that call the cancel function: [Cancel] called
    by a user, the first error in [FailFast] mode, and the [g.Cancel()] of
    [Wait] after the barrier (whatever the error slot holds).  Each of these
    does leave the context done on a group made by [New].  An error in
    [Collect] mode leaves the context as it is, and a goroutine running its
    task stays in it until the task returns. *)
Theorem cancellation_triggers (a : action) (s s' : State) :
  step a s = Next s' ->
  (ctx s = false -> ctx s' = true ->
     a = ParentCancel \/ exists i, a = Step i /\ calls_cancel s i = true) /\
  (forall i, a = Step i -> calls_cancel s i = true ->
     cancel (grp s) <> None -> ctx s' = true) /\
  (a = ParentCancel -> ctx s' = true) /\
  (forall i e, a = Step i -> threads s !! i = Some (Task_mode e) ->
     failureMode (grp s) = Collect -> ctx s' = ctx s) /\
  (forall j, threads s !! j = Some Task_fn ->
     (exists r, a = Return j r) \/ threads s' !! j = Some Task_fn).
Proof.
  intros Hstep. repeat split.
  - intros H0 H1. destruct a as [m|i|i r|i j|]; auto; right.
    + simpl in Hstep. injection Hstep as <-. simpl in H1. congruence.
    + exists i. split; [reflexivity|]. unfold calls_cancel.
      simpl in Hstep.
      destruct (threads s !! i) as [[]|] eqn:Hi; simpl in Hstep;
        unfold errOnce_Do, first_error, collect_error, Cancel in Hstep;
        simpl in Hstep; split_matches Hstep; try discriminate;
        try reflexivity; injection Hstep as <-; simpl in *; congruence.
    + simpl in Hstep. destruct (threads s !! i) as [[]|]; try discriminate.
      injection Hstep as <-. simpl in H1. congruence.
    + simpl in Hstep. split_matches Hstep; try discriminate.
      injection Hstep as <-. simpl in H1. congruence.
  - intros i -> Hc Hn. unfold calls_cancel in Hc. simpl in Hstep.
    destruct (threads s !! i) as [[]|] eqn:Hi; try discriminate;
      simpl in Hstep;
      unfold errOnce_Do, first_error, collect_error, Cancel in Hstep;
      simpl in Hstep; split_matches Hstep; try discriminate;
      injection Hstep as <-; simpl in *; congruence.
  - intros ->. injection Hstep as <-. reflexivity.
  - intros i e -> Hi Hm. simpl in Hstep. rewrite Hi in Hstep. simpl in Hstep.
    rewrite Hm in Hstep. injection Hstep as <-. reflexivity.
  - intros j Hj.
    destruct a as [m|i|i r|i k|].
    all: try (right; eapply step_frame; [exact Hstep|exact Hj|simpl; tauto]).
    + destruct (decide (i = j)) as [->|Hne].
      * simpl in Hstep. rewrite Hj in Hstep. discriminate.
      * right. eapply step_frame; [exact Hstep|exact Hj|simpl; tauto].
    + destruct (decide (i = j)) as [->|Hne].
      * left. eauto.
      * right. eapply step_frame; [exact Hstep|exact Hj|simpl; tauto].
    + right. eapply step_frame; [exact Hstep|exact Hj|].
      simpl. intros [-> | ->]; simpl in Hstep;
        destruct (sem (grp s)); try discriminate; rewrite Hj in Hstep;
        try discriminate.
      destruct (threads s !! i) as [[]|]; discriminate.
Qed.

(** The first error in [FailFast] mode cancels the context. *)
Lemma cancellation_triggers_witness :
  let acts := Go_uninterrupted 0 ++
              [Return 0%nat (Some errInvalid); Step 0%nat] in
  let s := after FailFast [] acts in
  let s' := after FailFast [] (acts ++ [Step 0%nat]) in
  step (Step 0%nat) s = Next s' /\
  ctx s = false /\ ctx s' = true /\ calls_cancel s 0%nat = true.
Proof.
  intros acts s s'.
  assert (Hs : step (Step 0%nat) s = Next s') by (vm_compute; reflexivity).
  assert (H0 : ctx s = false) by (vm_compute; reflexivity).
  assert (Hc : calls_cancel s 0%nat = true) by (vm_compute; reflexivity).
  assert (Hn : cancel (grp s) <> None) by (vm_compute; discriminate).
  destruct (cancellation_triggers (Step 0%nat) s s' Hs) as (_ & H & _).
  split; [exact Hs|]. split; [exact H0|]. split; [|exact Hc].
  exact (H 0%nat eq_refl Hc Hn).
Defined.

(** ** The concurrency limit *)

(** C4.  When limits are configured the last [WithLimit(k)] decides: in
    every state the group can reach the channel has capacity [k] and buffers
    exactly one element per goroutine holding capacity, so the goroutines
    holding capacity (and the tasks running among them) are never more than
    [k], and a call of [Go] is blocked at the channel exactly when [k]
    goroutines hold capacity.  With no limit option the channel is nil, the
    send in [add] and the receive in [done] change nothing, and from every
    reachable state any number of further tasks can be running at once. *)
Theorem limit_bounds_holders (pd : bool) (mode : FailureMode) (ns : list Z)
    (s0 s : State) :
  New pd mode (map WithLimit ns) = Some s0 -> reachable s0 s ->
  (forall k, last ns = Some k ->
     sem (grp s) = Some {| cap := k; qcount := count holds (threads s) |} /\
     count running (threads s) <= count holds (threads s) <= k /\
     (forall i, threads s !! i = Some Go_add_sem ->
        (step (Step i) s = Blocked <-> count holds (threads s) = k))) /\
  (ns = [] ->
     sem (grp s) = None /\
     (forall i, threads s !! i = Some Go_add_sem ->
        step (Step i) s = Next (goto i Go_add_wg s)) /\
     (forall i r, threads s !! i = Some (Task_done_sem r) ->
        step (Step i) s = Next (goto i (Task_done_wg r) s)) /\
     (forall n : nat, exists s', reachable s s' /\
        count running (threads s') = count running (threads s) + Z.of_nat n)).
Proof.
  intros HN Hreach.
  destruct (limit_config _ _ _ _ _ HN Hreach) as [Hlim Hno].
  split.
  - intros k Hk. destruct (Hlim k Hk) as [Hs Hle].
    split; [exact Hs|]. split.
    + split; [|exact Hle]. apply count_le. intros []; simpl; congruence.
    + intros i Hi. simpl. rewrite Hi. simpl. rewrite Hs. simpl.
      destruct (count holds (threads s) <? k) eqn:Hlt.
      * apply Z.ltb_lt in Hlt. split; [discriminate|lia].
      * apply Z.ltb_ge in Hlt. split; [lia|reflexivity].
  - intros Hnil. pose proof (Hno Hnil) as Hs.
    split; [exact Hs|]. split; [|split].
    + intros i Hi. simpl. rewrite Hi. simpl. rewrite Hs. reflexivity.
    + intros i r Hi. simpl. rewrite Hi. simpl. rewrite Hs. reflexivity.
    + intros n. destruct (Go_unlimited_many n s Hs) as (s' & Hr & Ht & _).
      exists s'. split; [exact Hr|].
      rewrite Ht, count_app, count_replicate. simpl. lia.
Qed.

(** [WithLimit(2)]: two tasks are running and a third [Go] is blocked. *)
Lemma limit_bounds_holders_witness :
  let acts := Go_uninterrupted 0 ++ Go_uninterrupted 1 ++ [Call Go] in
  let s := after Collect [2] acts in
  count running (threads s) <= count holds (threads s) <= 2 /\
  count running (threads s) = 2 /\ step (Step 2%nat) s = Blocked.
Proof.
  intros acts s.
  assert (HN : New false Collect (map WithLimit [2]) =
               Some (after Collect [2] [])) by (vm_compute; reflexivity).
  assert (Hr : reachable (after Collect [2] []) s)
    by (exists acts; vm_compute; reflexivity).
  assert (Hl : last [2] = Some 2) by (vm_compute; reflexivity).
  destruct (limit_bounds_holders false Collect [2] _ s HN Hr) as [H _].
  destruct (H 2 Hl) as (_ & Hle & _).
  split; [exact Hle|]. split; vm_compute; reflexivity.
Defined.

(** ** Wait *)



(** ** Cancel *)

(** C6.  [Cancel] is idempotent.  A call of [Cancel] is always executed (it
    neither blocks nor panics, also on a zero-value group whose [cancel] is
    nil), it changes nothing but the derived context, which it marks done
    when the group has a cancel function; calling it on a context that is
    already done changes nothing at all, any number of calls in a row has
    the effect of one, and whatever happens afterwards a done context stays
    done.  The state [s] is arbitrary: any failure mode, any stage of the
    tasks, before or after [Wait] has returned. *)
Theorem Cancel_idempotent (s : State) (i : nat) :
  threads s !! i = Some Cancel_call ->
  step (Step i) s = Next (goto i Cancel_returned (Cancel s)) /\
  grp (Cancel s) = grp s /\ threads (Cancel s) = threads s /\
  (cancel (grp s) <> None -> ctx (Cancel s) = true) /\
  (ctx s = true -> Cancel s = s) /\
  (forall n, Nat.iter (S n) Cancel s = Cancel s) /\
  (forall acts s', ctx s = true -> run acts s = Some s' -> ctx s' = true).
Proof.
  intros Hi. repeat split.
  - simpl. rewrite Hi. reflexivity.
  - unfold Cancel. destruct (cancel (grp s)) as [[]|]; reflexivity.
  - unfold Cancel. destruct (cancel (grp s)) as [[]|]; reflexivity.
  - unfold Cancel. destruct (cancel (grp s)) as [[]|]; [reflexivity|congruence].
  - apply Cancel_done.
  - intros n. apply Cancel_iter.
  - intros acts s' Hc Hr. eapply run_ctx; eassumption.
Qed.

(** [Cancel] called after [Wait] has returned, in [FailFast] mode. *)
Lemma Cancel_idempotent_witness :
  let s := after FailFast [] (Wait_uninterrupted 0 ++ [Call CancelM]) in
  threads s !! 1%nat = Some Cancel_call /\
  step (Step 1%nat) s = Next (goto 1%nat Cancel_returned (Cancel s)) /\
  Cancel s = s.
Proof.
  intros s.
  assert (Hi : threads s !! 1%nat = Some Cancel_call)
    by (vm_compute; reflexivity).
  assert (Hc : ctx s = true) by (vm_compute; reflexivity).
  destruct (Cancel_idempotent s 1%nat Hi) as (H1 & _ & _ & _ & H5 & _).
  split; [exact Hi|]. split; [exact H1|]. exact (H5 Hc).
Defined.

(** ** The order of the statements of Go *)

(** [add] sends on the channel before it calls [g.wg.Add(1)].  With
    [WithLimit(1)] and one task running, a second call of [Go] is blocked at
    its first statement while the counter is still 1; and the first
    statement of a call of [Go], once executed, has taken one unit of
    capacity and left the counter at 0.  So it is not true that the first
    statement of [Go] increments the counter. *)
Lemma Go_order_counterexample :
  let s := after Collect [1] (Go_uninterrupted 0 ++ [Call Go]) in
  let t := after Collect [1] [Call Go] in
  let t' := after Collect [1] [Call Go; Step 0%nat] in
  (threads s !! 1%nat = Some Go_add_sem /\
   step (Step 1%nat) s = Blocked /\ wg (grp s) = 1 /\
   threads t !! 0%nat = Some Go_add_sem /\
   step (Step 0%nat) t = Next t' /\
   wg (grp t) = 0 /\ wg (grp t') = 0 /\
   Len (grp t) = 0 /\ Len (grp t') = 1) /\
  ~ (forall u u' i, threads u !! i = Some (entry Go) ->
       step (Step i) u = Next u' -> wg (grp u') = wg (grp u) + 1).
Proof.
  intros s t t'.
  assert (Hi : threads t !! 0%nat = Some Go_add_sem)
    by (vm_compute; reflexivity).
  assert (Hs : step (Step 0%nat) t = Next t') by (vm_compute; reflexivity).
  assert (H0 : wg (grp t) = 0) by (vm_compute; reflexivity).
  assert (H1 : wg (grp t') = 0) by (vm_compute; reflexivity).
  split.
  - split; [vm_compute; reflexivity|]. split; [vm_compute; reflexivity|].
    split; [vm_compute; reflexivity|]. split; [exact Hi|].
    split; [exact Hs|]. split; [exact H0|]. split; [exact H1|].
    split; vm_compute; reflexivity.
  - intros Hall. pose proof (Hall t t' 0%nat Hi Hs) as Hw.
    rewrite H0, H1 in Hw. discriminate Hw.
Qed.

(** C7, amended.  A call of [Go] goes through three statements in this
    order, whatever the other goroutines do in between: first it takes one
    unit of capacity when a limit is configured (it is executed only when
    the channel has room, and the counter is unchanged by it), then it
    increments the counter of outstanding tasks by one, then it starts the
    goroutine that runs the task, without changing the group.  The last two
    statements can always be executed. *)
Theorem Go_order (a : action) (s s' : State) (i : nat) :
  step a s = Next s' ->
  (threads s !! i = Some Go_add_sem ->
     threads s' !! i = Some Go_add_sem \/
     threads s' !! i = Some Go_add_wg /\ wg (grp s') = wg (grp s) /\
     (a = Step i ->
      Len (grp s') = Len (grp s) + match sem (grp s) with Some _ => 1 | None => 0 end)) /\
  (threads s !! i = Some Go_add_wg ->
     threads s' !! i = Some Go_add_wg \/
     threads s' !! i = Some Go_go /\ wg (grp s') = wg (grp s) + 1 /\
     sem (grp s') = sem (grp s)) /\
  (threads s !! i = Some Go_go ->
     threads s' !! i = Some Go_go \/
     threads s' !! i = Some Task_fn /\ grp s' = grp s) /\
  (threads s !! i = Some Go_add_sem -> a = Step i ->
     forall c, sem (grp s) = Some c -> qcount c < cap c) /\
  (threads s !! i = Some Go_add_wg \/ threads s !! i = Some Go_go ->
     exists s'', step (Step i) s = Next s'').
Proof.
  intros Hstep.
  assert (Hblock : threads s !! i = Some Go_add_sem -> a = Step i ->
            forall c, sem (grp s) = Some c -> qcount c < cap c).
  { intros Hp -> c Hc. simpl in Hstep. rewrite Hp in Hstep. simpl in Hstep.
    rewrite Hc in Hstep. destruct (qcount c <? cap c) eqn:Hq; [|discriminate].
    apply Z.ltb_lt. exact Hq. }
  assert (Hfree : threads s !! i = Some Go_add_wg \/ threads s !! i = Some Go_go ->
            exists s'', step (Step i) s = Next s'').
  { intros [Hp|Hp]; simpl; rewrite Hp; simpl; eauto. }
  cut ((threads s !! i = Some Go_add_sem ->
     threads s' !! i = Some Go_add_sem \/
     threads s' !! i = Some Go_add_wg /\ wg (grp s') = wg (grp s) /\
     (a = Step i ->
      Len (grp s') = Len (grp s) + match sem (grp s) with Some _ => 1 | None => 0 end)) /\
  (threads s !! i = Some Go_add_wg ->
     threads s' !! i = Some Go_add_wg \/
     threads s' !! i = Some Go_go /\ wg (grp s') = wg (grp s) + 1 /\
     sem (grp s') = sem (grp s)) /\
  (threads s !! i = Some Go_go ->
     threads s' !! i = Some Go_go \/
     threads s' !! i = Some Task_fn /\ grp s' = grp s)); [tauto|].
  clear Hblock Hfree.
  assert (Hlt : forall p, threads s !! i = Some p -> (i < length (threads s))%nat)
    by (intros p Hp; eapply lookup_lt_Some; exact Hp).
  repeat split; intros Hp;
    (destruct (moves_dec a i) as [Hm|Hm];
     [|left; eapply step_frame; eassumption]);
    right; specialize (Hlt _ Hp);
    destruct a as [m|j|j r|j k|]; simpl in Hm; try contradiction.
  all: try (subst j; simpl in Hstep; rewrite Hp in Hstep; simpl in Hstep;
            split_matches Hstep; try discriminate; injection Hstep as <-;
            simpl; rewrite list_lookup_insert_eq by assumption;
            unfold Len; simpl;
            repeat split; try reflexivity; try congruence;
            intros _;
            repeat match goal with H : sem _ = _ |- _ => rewrite H end;
            simpl; lia).
  all: simpl in Hstep; destruct (sem (grp s)) as [c|]; try discriminate;
    destruct (threads s !! j) as [pj|] eqn:Hj; try discriminate;
    destruct pj; try discriminate;
    destruct (threads s !! k) as [pk|] eqn:Hk; try discriminate;
    destruct pk; try discriminate;
    destruct (cap c =? 0); try discriminate; injection Hstep as <-;
    destruct Hm as [-> | ->]; try congruence.
  simpl. split; [|split; [reflexivity|discriminate]].
  rewrite list_lookup_insert_ne by congruence.
  apply list_lookup_insert_eq. assumption.
Qed.

(** The second statement of a call of [Go] with [WithLimit(3)]. *)
Lemma Go_order_witness :
  let s := after Collect [3] [Call Go; Step 0%nat] in
  let s' := after Collect [3] [Call Go; Step 0%nat; Step 0%nat] in
  step (Step 0%nat) s = Next s' /\
  threads s !! 0%nat = Some Go_add_wg /\
  threads s' !! 0%nat = Some Go_go /\ wg (grp s') = wg (grp s) + 1.
Proof.
  intros s s'.
  assert (Hs : step (Step 0%nat) s = Next s') by (vm_compute; reflexivity).
  assert (Hi : threads s !! 0%nat = Some Go_add_wg)
    by (vm_compute; reflexivity).
  assert (Hn : threads s' !! 0%nat <> Some Go_add_wg)
    by (vm_compute; discriminate).
  destruct (Go_order (Step 0%nat) s s' 0%nat Hs) as (_ & H & _).
  split; [exact Hs|]. split; [exact Hi|].
  destruct (H Hi) as [H'|[H1 [H2 _]]]; [contradiction|].
  split; assumption.
Defined.

(** ** Wait on a group without tasks *)

(** C8.  On a group made by [New] on which [Go] has never been called,
    whatever else has been called: a call of [Wait] passes its barrier at
    once, its three statements run through without a pause and it returns
    nil; and as long as [Go] is not called every [Wait] that returns has
    returned nil. *)
Theorem Wait_without_tasks (pd : bool) (mode : FailureMode) (ns : list Z)
    (s0 s : State) (acts : list action) (i : nat) :
  New pd mode (map WithLimit ns) = Some s0 ->
  run acts s0 = Some s ->
  forallb (fun a => negb (is_Call_Go a)) acts = true ->
  threads s !! i = Some Wait_wg ->
  step (Step i) s = Next (goto i Wait_Cancel s) /\
  (exists s', run [Step i; Step i; Step i] s = Some s' /\
     threads s' !! i = Some (Wait_returned None)) /\
  (forall acts' s' r, run acts' s = Some s' ->
     forallb (fun a => negb (is_Call_Go a)) acts' = true ->
     threads s' !! i = Some (Wait_returned r) -> r = None).
Proof.
  intros HN Hr Ha Hi.
  pose proof (Idle_run _ _ _ Ha (Idle_New _ _ _ _ HN) Hr) as HI.
  split; [|split].
  - simpl. rewrite Hi. simpl. rewrite (idle_wg _ HI). reflexivity.
  - destruct (Wait_runs s i Hi (idle_wg _ HI)) as (s' & Hr' & Hi' & _).
    exists s'. split; [exact Hr'|]. rewrite (idle_err _ HI) in Hi'. exact Hi'.
  - intros acts' s' r Hr' Ha' Hi'.
    pose proof (Idle_run _ _ _ Ha' HI Hr') as HI'.
    pose proof (count_zero _ _ _ _ (idle_returned _ HI') Hi') as Hre.
    destruct r; [discriminate Hre|reflexivity].
Qed.

(** [Wait] right after [New]. *)
Lemma Wait_without_tasks_witness :
  let s := after FailFast [3] [Call Wait] in
  exists s', run [Step 0%nat; Step 0%nat; Step 0%nat] s = Some s' /\
    threads s' !! 0%nat = Some (Wait_returned None).
Proof.
  intros s.
  assert (HN : New false FailFast (map WithLimit [3]) =
               Some (after FailFast [3] [])) by (vm_compute; reflexivity).
  assert (Hr : run [Call Wait] (after FailFast [3] []) = Some s)
    by (vm_compute; reflexivity).
  assert (Ha : forallb (fun a => negb (is_Call_Go a)) [Call Wait] = true)
    by (vm_compute; reflexivity).
  assert (Hi : threads s !! 0%nat = Some Wait_wg)
    by (vm_compute; reflexivity).
  destruct (Wait_without_tasks false FailFast [3] _ s [Call Wait] 0%nat
              HN Hr Ha Hi) as (_ & H & _).
  exact H.
Defined.

(** ** The active count *)

(** C9.  [Len] is always executed and returns [len(g.sem)].  In every
    state the group can reach this is, when a limit is configured, the
    number of goroutines that hold capacity at that moment (those between
    the send in [add] and the receive in [done]); with no limit option it
    is 0, and stays 0 however many more tasks are made to run at once. *)
Theorem Len_counts_holders (pd : bool) (mode : FailureMode) (ns : list Z)
    (s0 s : State) (i : nat) :
  New pd mode (map WithLimit ns) = Some s0 -> reachable s0 s ->
  threads s !! i = Some Len_call ->
  step (Step i) s = Next (goto i (Len_returned (Len (grp s))) s) /\
  (ns <> [] -> Len (grp s) = count holds (threads s)) /\
  (ns = [] ->
     Len (grp s) = 0 /\
     forall n : nat, exists s', reachable s s' /\
       count running (threads s') = count running (threads s) + Z.of_nat n /\
       Len (grp s') = 0).
Proof.
  intros HN Hreach Hi.
  destruct (limit_config _ _ _ _ _ HN Hreach) as [Hlim Hno].
  split; [simpl; rewrite Hi; reflexivity|]. split.
  - intros Hne. destruct (last ns) as [k|] eqn:Hk.
    + destruct (Hlim k eq_refl) as [Hs _]. unfold Len. rewrite Hs. reflexivity.
    + apply last_None in Hk. contradiction.
  - intros Hnil. pose proof (Hno Hnil) as Hs.
    split; [unfold Len; rewrite Hs; reflexivity|].
    intros n. destruct (Go_unlimited_many n s Hs) as (s' & Hr & Ht & Hs').
    exists s'. split; [exact Hr|]. split.
    + rewrite Ht, count_app, count_replicate. simpl. lia.
    + unfold Len. rewrite Hs'. reflexivity.
Qed.

(** No limit, two tasks running: [Len] returns 0. *)
Lemma Len_counts_holders_witness :
  let acts := Go_uninterrupted 0 ++ Go_uninterrupted 1 ++ [Call LenM] in
  let s := after Collect [] acts in
  count running (threads s) = 2 /\
  step (Step 2%nat) s = Next (goto 2%nat (Len_returned 0) s).
Proof.
  intros acts s.
  assert (HN : New false Collect (map WithLimit []) =
               Some (after Collect [] [])) by (vm_compute; reflexivity).
  assert (Hr : reachable (after Collect [] []) s)
    by (exists acts; vm_compute; reflexivity).
  assert (Hi : threads s !! 2%nat = Some Len_call)
    by (vm_compute; reflexivity).
  assert (Hc : count running (threads s) = 2) by (vm_compute; reflexivity).
  split; [exact Hc|].
  destruct (Len_counts_holders false Collect [] _ s 2%nat HN Hr Hi)
    as (H1 & _ & H3).
  destruct (H3 eq_refl) as [H0 _]. rewrite H0 in H1. exact H1.
Defined.

(** ** A limit of zero *)

(** C10.  With [WithLimit(0)] the channel is unbuffered.  In every state
    the group can reach no call of [Go] has passed the channel: no
    goroutine holds capacity, none has been counted and no task has
    started; and every call of [Go] is blocked at the send, which no
    receiver can meet either. *)
Theorem limit_zero_blocks (pd : bool) (mode : FailureMode) (s0 s : State) :
  New pd mode [WithLimit 0] = Some s0 -> reachable s0 s ->
  sem (grp s) = Some {| cap := 0; qcount := 0 |} /\
  (forall i p, threads s !! i = Some p -> started p = false) /\
  count holds (threads s) = 0 /\ count running (threads s) = 0 /\
  wg (grp s) = 0 /\
  (forall i, threads s !! i = Some Go_add_sem ->
     step (Step i) s = Blocked /\
     forall j, step (Handoff i j) s = Invalid).
Proof.
  intros HN [acts Hr].
  pose proof (Inv_run acts s0 s (Inv_New pd mode [0] s0 HN) Hr) as HI.
  pose proof (New_sem pd mode [0] s0 HN) as Hs0. simpl in Hs0.
  destruct (New_fields pd mode [0] s0 HN) as (Ht0 & _).
  assert (Hc0 : count started (threads s0) = 0) by (rewrite Ht0; reflexivity).
  destruct (limit_zero_run _ _ _ Hs0 Hc0 Hr) as [Hs Hc].
  assert (Hz : forall i p, threads s !! i = Some p -> started p = false)
    by (intros i p; apply count_zero; exact Hc).
  split; [exact Hs|]. split; [exact Hz|].
  assert (Hh : count holds (threads s) = 0).
  { pose proof (count_nonneg holds (threads s)).
    pose proof (count_le holds started (threads s)) as Hle.
    rewrite Hc in Hle. assert (count holds (threads s) <= 0); [|lia].
    apply Hle. intros []; simpl; congruence. }
  split; [exact Hh|]. split.
  { pose proof (count_nonneg running (threads s)).
    pose proof (count_le running started (threads s)) as Hle.
    rewrite Hc in Hle. assert (count running (threads s) <= 0); [|lia].
    apply Hle. intros []; simpl; congruence. }
  split.
  { rewrite (inv_wg _ HI).
    pose proof (count_nonneg outstanding (threads s)).
    pose proof (count_le outstanding started (threads s)) as Hle.
    rewrite Hc in Hle. assert (count outstanding (threads s) <= 0); [|lia].
    apply Hle. intros []; simpl; congruence. }
  intros i Hi. split.
  - simpl. rewrite Hi. simpl. rewrite Hs. reflexivity.
  - intros j. simpl. rewrite Hs, Hi.
    destruct (threads s !! j) as [q|] eqn:Hj; [|reflexivity].
    pose proof (Hz j q Hj) as Hq. destruct q; try reflexivity; discriminate.
Qed.

(** Two calls of [Go] on a group with [WithLimit(0)]. *)
Lemma limit_zero_blocks_witness :
  let acts := [Call Go; Call Go; Call Wait; Step 2%nat] in
  let s := after Collect [0] acts in
  threads s !! 0%nat = Some Go_add_sem /\
  step (Step 0%nat) s = Blocked /\ step (Step 1%nat) s = Blocked /\
  count running (threads s) = 0.
Proof.
  intros acts s.
  assert (HN : New false Collect [WithLimit 0] =
               Some (after Collect [0] [])) by (vm_compute; reflexivity).
  assert (Hr : reachable (after Collect [0] []) s)
    by (exists acts; vm_compute; reflexivity).
  assert (H0 : threads s !! 0%nat = Some Go_add_sem)
    by (vm_compute; reflexivity).
  assert (H1 : threads s !! 1%nat = Some Go_add_sem)
    by (vm_compute; reflexivity).
  destruct (limit_zero_blocks false Collect _ s HN Hr)
    as (_ & _ & _ & Hrun & _ & Hb).
  split; [exact H0|]. split; [exact (proj1 (Hb 0%nat H0))|].
  split; [exact (proj1 (Hb 1%nat H1))|exact Hrun].
Defined.

(** ** The tests of the package, replayed *)

(** [TestWorkGroup_Collect_MultipleErrors]: both wrapped errors are found. *)
Example Collect_MultipleErrors :
  let s := after Collect [] (Go_uninterrupted 0 ++ Go_uninterrupted 1 ++
             fail_uninterrupted 0 error1 ++ fail_uninterrupted 1 error2 ++
             Wait_uninterrupted 2) in
  exists r, threads s !! 2%nat = Some (Wait_returned r) /\
    r <> None /\ Is r (Some errInternal) = true /\
    Is r (Some errInvalid) = true.
Proof.
  eexists. split; [vm_compute; reflexivity|].
  split; [discriminate|]. split; vm_compute; reflexivity.
Qed.

(** [TestWorkgroup_FailFast_SingleError]: the task that fails first wins,
    the error of the other one is not in the result. *)
Example FailFast_SingleError :
  let s := after FailFast [] (Go_uninterrupted 0 ++ Go_uninterrupted 1 ++
             fail_uninterrupted 1 error2 ++ fail_uninterrupted 0 error1 ++
             Wait_uninterrupted 2) in
  exists r, threads s !! 2%nat = Some (Wait_returned r) /\
    r <> None /\ Is r (Some errInvalid) = true /\
    Is r (Some errInternal) = false.
Proof.
  eexists. split; [vm_compute; reflexivity|].
  split; [discriminate|]. split; vm_compute; reflexivity.
Qed.

(** [TestWorkGroup_NoError]: two tasks that succeed. *)
Example NoError :
  let s := after Collect [] (Go_uninterrupted 0 ++ Go_uninterrupted 1 ++
             succeed_uninterrupted 1 ++ succeed_uninterrupted 0 ++
             Wait_uninterrupted 2) in
  threads s !! 2%nat = Some (Wait_returned None) /\ ctx s = true.
Proof. split; vm_compute; reflexivity. Qed.

(** [TestGroup_WithLimit]: with [WithLimit(3)] the fourth [Go] waits until
    a task has ended. *)
Example WithLimit_3 :
  let acts := Go_uninterrupted 0 ++ Go_uninterrupted 1 ++
              Go_uninterrupted 2 ++ [Call Go] in
  let s := after Collect [3] acts in
  let s' := after Collect [3] (acts ++ succeed_uninterrupted 1 ++
                               [Step 3%nat]) in
  count running (threads s) = 3 /\ Len (grp s) = 3 /\
  step (Step 3%nat) s = Blocked /\
  run (succeed_uninterrupted 1 ++ [Step 3%nat]) s = Some s' /\
  threads s' !! 3%nat = Some Go_add_wg /\ Len (grp s') = 3.
Proof.
  intros acts s s'.
  split; [vm_compute; reflexivity|]. split; [vm_compute; reflexivity|].
  split; [vm_compute; reflexivity|]. split; [vm_compute; reflexivity|].
  split; vm_compute; reflexivity.
Qed.

(** [TestGroup_Cancel]: after [Cancel] the tasks see the done context and
    return [context.Canceled], which [Wait] reports. *)
Example Cancel_then_Wait :
  let s := after Collect [] (Go_uninterrupted 0 ++ Go_uninterrupted 1 ++
             [Call CancelM; Step 2%nat] ++
             fail_uninterrupted 0 Canceled ++ fail_uninterrupted 1 Canceled ++
             Wait_uninterrupted 3) in
  exists r, threads s !! 3%nat = Some (Wait_returned r) /\
    Is r (Some Canceled) = true /\ ctx s = true.
Proof.
  eexists. split; [vm_compute; reflexivity|].
  split; vm_compute; reflexivity.
Qed.

(** Matching goes by identity, not by message text. *)
Example same_text_other_error :
  Is (Join 0%nat [None; Some (errorString 7%nat "boom")])
     (Some (errorString 7%nat "boom")) = true /\
  Is (Join 0%nat [None; Some (errorString 7%nat "boom")])
     (Some (errorString 8%nat "boom")) = false.
Proof. split; vm_compute; reflexivity. Qed.

(** A zero-value group: [Cancel] does nothing and does not panic. *)
Example zero_value_Cancel :
  step (Step 0%nat) (spawn Cancel_call zero_State) =
  Next (goto 0%nat Cancel_returned (spawn Cancel_call zero_State)).
Proof. vm_compute. reflexivity. Qed.

(** [WithLimit] with a negative size panics in [make]. *)
Example negative_limit : New false Collect [WithLimit (-1)] = None.
Proof. vm_compute. reflexivity. Qed.

(** * Further properties of the code *)

(** Two goroutines counted by [f] among at most one are the same one. *)
Lemma count_le_1 (f : pc -> bool) (ts : list pc) (i j : nat) (p q : pc) :
  count f ts <= 1 -> ts !! i = Some p -> ts !! j = Some q ->
  f p = true -> f q = true -> i = j.
Proof.
  revert i j. induction ts as [|x ts IH]; intros [|i] [|j] Hc Hi Hj Hp Hq;
    simpl in *; try discriminate; auto.
  - injection Hi as ->. rewrite Hp in Hc.
    pose proof (count_lookup f ts j q Hj Hq). simpl in Hc. lia.
  - injection Hj as ->. rewrite Hq in Hc.
    pose proof (count_lookup f ts i p Hi Hp). simpl in Hc. lia.
  - f_equal. apply IH; auto. destruct (f x); simpl in Hc; lia.
Qed.

(** What the deferred calls of a task goroutine find, whatever the
    schedule: the counter of the WaitGroup is the number of tasks submitted
    and not completed, so it is at least 1 whenever a goroutine is at
    [g.wg.Done()], which therefore never makes it negative; the mutex is
    locked whenever a goroutine is at the deferred [g.errLock.Unlock()],
    which is executed; and the channel, when there is one, holds an element
    whenever a goroutine is at the receive in [done], which is executed
    without waiting.  (What [sync.WaitGroup] does when [Add] meets a
    released [Wait] is not part of this statement.) *)
Theorem deferred_calls_are_safe (pd : bool) (mode : FailureMode)
    (ns : list Z) (s0 s : State) :
  New pd mode (map WithLimit ns) = Some s0 -> reachable s0 s ->
  wg (grp s) = count outstanding (threads s) /\
  (forall i r, threads s !! i = Some (Task_done_wg r) -> 1 <= wg (grp s)) /\
  (forall i e, threads s !! i = Some (Task_Unlock e) ->
     errLock (grp s) = true /\ exists s', step (Step i) s = Next s') /\
  (forall i r, threads s !! i = Some (Task_done_sem r) ->
     (forall c, sem (grp s) = Some c -> 1 <= qcount c <= cap c) /\
     exists s', step (Step i) s = Next s').
Proof.
  intros HN Hreach.
  pose proof (Inv_reachable _ _ _ _ _ HN Hreach) as HI.
  split; [exact (inv_wg _ HI)|].
  split; [|split].
  - intros i r Hi.
    pose proof (count_lookup outstanding _ _ _ Hi eq_refl) as Hc.
    rewrite <- (inv_wg _ HI) in Hc. exact Hc.
  - intros i e Hi.
    pose proof (count_lookup critical _ _ _ Hi eq_refl) as Hc.
    rewrite <- (inv_lock _ HI) in Hc.
    assert (Hl : errLock (grp s) = true)
      by (destruct (errLock (grp s)); [reflexivity|simpl in Hc; lia]).
    split; [exact Hl|]. simpl. rewrite Hi. simpl. rewrite Hl. eauto.
  - intros i r Hi. split; [|eapply Inv_done_runs; eassumption].
    intros c Hc. destruct (inv_sem _ HI c Hc) as [Hq Hle].
    pose proof (count_lookup holds _ _ _ Hi eq_refl). lia.
Qed.

(** A failed task under [FailFast] with limit 1, at its deferred unlock. *)
Lemma deferred_calls_are_safe_witness :
  let acts := Go_uninterrupted 0 ++
              [Return 0%nat (Some error1); Step 0%nat; Step 0%nat] in
  let s := after FailFast [1] acts in
  threads s !! 0%nat = Some (Task_Unlock error1) /\
  wg (grp s) = count outstanding (threads s) /\ errLock (grp s) = true /\
  exists s', step (Step 0%nat) s = Next s'.
Proof.
  intros acts s.
  assert (HN : New false FailFast (map WithLimit [1]) =
               Some (after FailFast [1] [])) by (vm_compute; reflexivity).
  assert (Hr : reachable (after FailFast [1] []) s)
    by (exists acts; vm_compute; reflexivity).
  assert (Hi : threads s !! 0%nat = Some (Task_Unlock error1))
    by (vm_compute; reflexivity).
  destruct (deferred_calls_are_safe false FailFast [1] _ s HN Hr)
    as (H1 & _ & H3 & _).
  split; [exact Hi|]. split; [exact H1|]. exact (H3 0%nat error1 Hi).
Defined.

(** [g.errLock] gives mutual exclusion: at most one goroutine is between
    [Lock] and the deferred [Unlock], the mutex is locked exactly while one
    is, and a goroutine at [Lock] waits exactly then. *)
Theorem errLock_mutual_exclusion (pd : bool) (mode : FailureMode)
    (ns : list Z) (s0 s : State) :
  New pd mode (map WithLimit ns) = Some s0 -> reachable s0 s ->
  (forall i j p q, threads s !! i = Some p -> threads s !! j = Some q ->
     critical p = true -> critical q = true -> i = j) /\
  (errLock (grp s) = true <-> count critical (threads s) = 1) /\
  (errLock (grp s) = false <-> count critical (threads s) = 0) /\
  (forall i e, threads s !! i = Some (Task_Lock e) ->
     (step (Step i) s = Blocked <-> count critical (threads s) = 1)).
Proof.
  intros HN Hreach.
  pose proof (Inv_reachable _ _ _ _ _ HN Hreach) as HI.
  pose proof (inv_lock _ HI) as Hl.
  assert (Hle : count critical (threads s) <= 1)
    by (rewrite <- Hl; destruct (errLock (grp s)); simpl; lia).
  split; [|split; [|split]].
  - intros i j p q Hi Hj Hp Hq. eapply count_le_1; eassumption.
  - destruct (errLock (grp s)); simpl in Hl; split; intros H;
      try reflexivity; try discriminate; lia.
  - destruct (errLock (grp s)); simpl in Hl; split; intros H;
      try reflexivity; try discriminate; lia.
  - intros i e Hi. simpl. rewrite Hi. simpl.
    destruct (errLock (grp s)); simpl in Hl; split; intros H;
      try reflexivity; try discriminate; lia.
Qed.

(** Two failed tasks: one inside the critical section, the other waits. *)
Lemma errLock_mutual_exclusion_witness :
  let acts := Go_uninterrupted 0 ++ Go_uninterrupted 1 ++
              [Return 0%nat (Some error1); Return 1%nat (Some error2);
              Step 0%nat] in
  let s := after Collect [] acts in
  threads s !! 1%nat = Some (Task_Lock error2) /\
  errLock (grp s) = true /\ step (Step 1%nat) s = Blocked.
Proof.
  intros acts s.
  assert (HN : New false Collect (map WithLimit []) =
               Some (after Collect [] [])) by (vm_compute; reflexivity).
  assert (Hr : reachable (after Collect [] []) s)
    by (exists acts; vm_compute; reflexivity).
  assert (Hi : threads s !! 1%nat = Some (Task_Lock error2))
    by (vm_compute; reflexivity).
  assert (Hc : count critical (threads s) = 1) by (vm_compute; reflexivity).
  destruct (errLock_mutual_exclusion false Collect [] _ s HN Hr)
    as (_ & H2 & _ & H4).
  split; [exact Hi|]. split; [exact (proj2 H2 Hc)|].
  exact (proj2 (H4 1%nat error2 Hi) Hc).
Defined.

(** [g.err] is written only by the failure-mode statement of a goroutine
    that holds [g.errLock], and that goroutine is the only one inside the
    critical section: the writes to the error slot do not race. *)
Theorem err_written_under_lock (pd : bool) (mode : FailureMode)
    (ns : list Z) (s0 s s' : State) (a : action) :
  New pd mode (map WithLimit ns) = Some s0 -> reachable s0 s ->
  step a s = Next s' -> err (grp s') <> err (grp s) ->
  exists i e, a = Step i /\ threads s !! i = Some (Task_mode e) /\
    errLock (grp s) = true /\ errLock (grp s') = true /\
    (forall j q, threads s !! j = Some q -> critical q = true -> j = i).
Proof.
  intros HN Hreach Hstep Hne.
  pose proof (Inv_reachable _ _ _ _ _ HN Hreach) as HI.
  pose proof (inv_lock _ HI) as Hl.
  destruct a as [m|i|i r|i j|].
  - injection Hstep as <-. contradiction Hne. reflexivity.
  - destruct (threads s !! i) as [p|] eqn:Hi;
      [|simpl in Hstep; rewrite Hi in Hstep; discriminate].
    assert (Hmode : exists e, p = Task_mode e).
    { simpl in Hstep. rewrite Hi in Hstep.
      destruct p; simpl in Hstep; unfold Cancel in Hstep;
        split_matches Hstep; try discriminate; try (injection Hstep as <-);
        try (contradiction Hne; reflexivity); eauto. }
    destruct Hmode as [e ->]. exists i, e.
    pose proof (count_lookup critical _ _ _ Hi eq_refl) as Hc.
    assert (Hlk : errLock (grp s) = true)
      by (destruct (errLock (grp s)); [reflexivity|simpl in Hl; lia]).
    split; [reflexivity|]. split; [exact Hi|]. split; [exact Hlk|].
    split.
    + simpl in Hstep. rewrite Hi in Hstep. simpl in Hstep.
      unfold errOnce_Do, first_error, collect_error, Cancel in Hstep.
      split_matches Hstep; injection Hstep as <-; simpl; exact Hlk.
    + intros j q Hj Hq. rewrite Hlk in Hl. simpl in Hl.
      eapply (count_le_1 critical); [|exact Hj|exact Hi|exact Hq|reflexivity].
      lia.
  - simpl in Hstep. destruct (threads s !! i) as [[]|]; try discriminate.
    injection Hstep as <-. contradiction Hne. reflexivity.
  - destruct (step_Handoff _ _ _ _ Hstep) as (c & r & _ & _ & _ & _ & -> & _).
    contradiction Hne. reflexivity.
  - injection Hstep as <-. contradiction Hne. reflexivity.
Qed.

(** The first error of a [Collect] group is stored by the goroutine that
    holds the mutex. *)
Lemma err_written_under_lock_witness :
  let acts := Go_uninterrupted 0 ++ Go_uninterrupted 1 ++
              [Return 0%nat (Some error1); Return 1%nat (Some error2);
               Step 0%nat] in
  let s := after Collect [] acts in
  let s' := after Collect [] (acts ++ [Step 0%nat]) in
  exists i e, Step 0%nat = Step i /\ threads s !! i = Some (Task_mode e) /\
    errLock (grp s) = true /\ errLock (grp s') = true /\
    (forall j q, threads s !! j = Some q -> critical q = true -> j = i).
Proof.
  intros acts s s'.
  assert (HN : New false Collect (map WithLimit []) =
               Some (after Collect [] [])) by (vm_compute; reflexivity).
  assert (Hr : reachable (after Collect [] []) s)
    by (exists acts; vm_compute; reflexivity).
  assert (Hs : step (Step 0%nat) s = Next s') by (vm_compute; reflexivity).
  assert (Hne : err (grp s') <> err (grp s)) by (vm_compute; discriminate).
  exact (err_written_under_lock false Collect [] _ s s' (Step 0%nat)
           HN Hr Hs Hne).
Defined.

(** When no call of [Go] is under way and the counter is zero, nothing is
    left behind: no capacity is held ([Len] is 0), the mutex is free,
    every goroutine made by [Go] has ended, and [g.wg.Wait()] lets a caller
    of [Wait] through. *)
Theorem nothing_held_when_done (pd : bool) (mode : FailureMode)
    (ns : list Z) (s0 s : State) :
  New pd mode (map WithLimit ns) = Some s0 -> reachable s0 s ->
  count submitting (threads s) = 0 -> wg (grp s) = 0 ->
  Len (grp s) = 0 /\ errLock (grp s) = false /\
  (forall i p, threads s !! i = Some p -> of_Go p = true ->
     exists r, p = Task_exit r) /\
  (forall i, threads s !! i = Some Wait_wg ->
     step (Step i) s = Next (goto i Wait_Cancel s)).
Proof.
  intros HN Hreach Hsub Hwg.
  pose proof (Inv_reachable _ _ _ _ _ HN Hreach) as HI.
  assert (Hout : count outstanding (threads s) = 0)
    by (rewrite <- (inv_wg _ HI); exact Hwg).
  assert (Hh : count holds (threads s) = 0).
  { pose proof (count_nonneg holds (threads s)).
    pose proof (count_le_add holds submitting outstanding (threads s)) as Hle.
    rewrite Hsub, Hout in Hle.
    assert (count holds (threads s) <= 0); [|lia].
    apply Hle. intros []; simpl; auto; discriminate. }
  assert (Hc : count critical (threads s) = 0).
  { pose proof (count_nonneg critical (threads s)).
    pose proof (count_le critical outstanding (threads s)) as Hle.
    rewrite Hout in Hle.
    assert (count critical (threads s) <= 0); [|lia].
    apply Hle. intros []; simpl; auto. }
  split; [|split; [|split]].
  - unfold Len. destruct (sem (grp s)) as [c|] eqn:Hs; [|reflexivity].
    destruct (inv_sem _ HI c Hs) as [Hq _]. lia.
  - pose proof (inv_lock _ HI) as Hl. rewrite Hc in Hl.
    destruct (errLock (grp s)); [discriminate Hl|reflexivity].
  - intros i p Hi Hp.
    pose proof (count_zero _ _ _ _ Hsub Hi) as H1.
    pose proof (count_zero _ _ _ _ Hout Hi) as H2.
    destruct p; try discriminate; eauto.
  - intros i Hi. simpl. rewrite Hi. simpl. rewrite Hwg. reflexivity.
Qed.

(** One failed task has ended; [Wait] is called. *)
Lemma nothing_held_when_done_witness :
  let acts := Go_uninterrupted 0 ++ fail_uninterrupted 0 error1 ++
              [Call Wait] in
  let s := after Collect [2] acts in
  threads s !! 1%nat = Some Wait_wg /\ Len (grp s) = 0 /\
  step (Step 1%nat) s = Next (goto 1%nat Wait_Cancel s).
Proof.
  intros acts s.
  assert (HN : New false Collect (map WithLimit [2]) =
               Some (after Collect [2] [])) by (vm_compute; reflexivity).
  assert (Hr : reachable (after Collect [2] []) s)
    by (exists acts; vm_compute; reflexivity).
  assert (Hsub : count submitting (threads s) = 0)
    by (vm_compute; reflexivity).
  assert (Hwg : wg (grp s) = 0) by (vm_compute; reflexivity).
  assert (Hi : threads s !! 1%nat = Some Wait_wg) by (vm_compute; reflexivity).
  destruct (nothing_held_when_done false Collect [2] _ s HN Hr Hsub Hwg)
    as (H1 & _ & _ & H4).
  split; [exact Hi|]. split; [exact H1|]. exact (H4 1%nat Hi).
Defined.

Lemma apply_opts_None (ns : list Z) (g : Group) :
  apply_opts (map WithLimit ns) g = None <-> Exists (fun n => n < 0) ns.
Proof.
  revert g. induction ns as [|n ns IH]; intros g; simpl.
  - split; [discriminate|]. intros H. inversion H.
  - unfold WithLimit at 1, make_chan.
    destruct (n <? 0) eqn:Hn.
    + apply Z.ltb_lt in Hn. split; [intros _; left; exact Hn|reflexivity].
    + apply Z.ltb_ge in Hn. rewrite IH. split.
      * intros H. right. exact H.
      * intros H. inversion H; subst; [lia|assumption].
Qed.

(** [New] called with options made by [WithLimit] panics exactly when its
    context argument is nil ([context.WithCancel] on a nil parent) or one
    of the limits is negative ([make] with a negative size), whatever the
    other limits are; otherwise it returns a group with no goroutine, a
    zero counter, a nil error, the mode asked for, and the channel of the
    last [WithLimit] (nil without one), and a derived context that is done
    exactly if the parent is. *)
Theorem New_panics_iff (ctx0 : option bool) (mode : FailureMode)
    (ns : list Z) :
  (New_ctx ctx0 mode (map WithLimit ns) = None <->
     ctx0 = None \/ Exists (fun n => n < 0) ns) /\
  (forall pd, ctx0 = Some pd -> Forall (fun n => 0 <= n) ns ->
   exists s0, New_ctx ctx0 mode (map WithLimit ns) = Some s0 /\
     threads s0 = [] /\ parent s0 = pd /\ ctx s0 = pd /\
     wg (grp s0) = 0 /\ err (grp s0) = None /\
     failureMode (grp s0) = mode /\
     sem (grp s0) =
       option_map (fun k => {| cap := k; qcount := 0 |}) (last ns)).
Proof.
  assert (H1 : forall pd, New pd mode (map WithLimit ns) = None <->
               Exists (fun n => n < 0) ns).
  { intros pd. unfold New. rewrite <- (apply_opts_None ns
      {| cancel := Some cancelCtx; wg := 0; err := None; errLock := false;
         errOnce := false; sem := None; failureMode := mode |}).
    destruct (apply_opts _ _); split; intros H; congruence. }
  split.
  - destruct ctx0 as [pd|]; simpl.
    + rewrite (H1 pd). split; [intros H; right; exact H|].
      intros [H|H]; [discriminate|exact H].
    + split; [intros _; left; reflexivity|reflexivity].
  - intros pd -> Hall. simpl.
    destruct (New pd mode (map WithLimit ns)) as [s0|] eqn:HN.
    + exists s0. split; [reflexivity|].
      destruct (New_fields _ _ _ _ HN)
        as (Ht & Hp & Hc & _ & Hw & He & _ & _ & Hm & _).
      repeat (split; [assumption|]). apply (New_sem _ _ _ _ HN).
    + exfalso. destruct (H1 pd) as [Hx _]. pose proof (Hx HN) as HE.
      apply Exists_exists in HE. destruct HE as (n & Hin & Hn).
      rewrite Forall_forall in Hall. specialize (Hall n Hin). lia.
Qed.

(** With room in the channel, calls of [Go] run through one after the
    other. *)
Lemma Go_limited (s : State) (c : chan) :
  sem (grp s) = Some c -> qcount c < cap c ->
  exists s', run (Go_uninterrupted (length (threads s))) s = Some s' /\
    threads s' = threads s ++ [Task_fn] /\
    sem (grp s') = Some {| cap := cap c; qcount := qcount c + 1 |}.
Proof.
  intros Hs Hlt. unfold Go_uninterrupted.
  destruct s as [g pa cx h ts]. simpl in Hs |- *.
  rewrite lookup_snoc. simpl. rewrite Hs.
  apply Z.ltb_lt in Hlt. rewrite Hlt.
  unfold goto. simpl. rewrite insert_snoc, lookup_snoc. simpl.
  unfold goto. simpl. rewrite insert_snoc, lookup_snoc. simpl.
  unfold goto. simpl. rewrite insert_snoc.
  eexists. split; [reflexivity|]. simpl. auto.
Qed.

Lemma Go_limited_many (n : nat) (s : State) (c : chan) :
  sem (grp s) = Some c -> qcount c + Z.of_nat n <= cap c ->
  exists s', reachable s s' /\
    threads s' = threads s ++ replicate n Task_fn /\
    sem (grp s') = Some {| cap := cap c; qcount := qcount c + Z.of_nat n |}.
Proof.
  revert s c. induction n as [|n IH]; intros s c Hs Hle.
  - exists s. split; [exists []; reflexivity|]. simpl. rewrite app_nil_r.
    split; [reflexivity|]. rewrite Hs. destruct c; simpl. f_equal. f_equal. lia.
  - destruct (Go_limited s c Hs) as (s1 & Hr1 & Ht1 & Hs1); [lia|].
    destruct (IH s1 _ Hs1) as (s2 & Hr2 & Ht2 & Hs2); [simpl; lia|].
    exists s2. split; [|split].
    + eapply reachable_trans; [eexists; exact Hr1|exact Hr2].
    + rewrite Ht2, Ht1, <- app_assoc. reflexivity.
    + rewrite Hs2. simpl. f_equal. f_equal. lia.
Qed.

(** The limit is tight: with [WithLimit(k)] as the last limit there is a
    schedule after which [k] tasks are running at once and [Len] is [k],
    and then every further call of [Go] waits. *)
Theorem limit_is_reached (pd : bool) (mode : FailureMode) (ns : list Z)
    (s0 : State) (k : Z) :
  New pd mode (map WithLimit ns) = Some s0 -> last ns = Some k ->
  exists s, reachable s0 s /\
    count running (threads s) = k /\ Len (grp s) = k /\
    forall s' i, step (Call Go) s = Next s' ->
      threads s' !! i = Some Go_add_sem -> step (Step i) s' = Blocked.
Proof.
  intros HN Hk.
  pose proof (New_sem _ _ _ _ HN) as Hs0. rewrite Hk in Hs0. simpl in Hs0.
  destruct (New_fields _ _ _ _ HN) as (Ht0 & _ & _ & _ & _ & _ & _ & _ & _ & Hc0).
  destruct (Hc0 _ Hs0) as [_ Hk0]. simpl in Hk0.
  destruct (Go_limited_many (Z.to_nat k) s0 _ Hs0) as (s & Hr & Ht & Hs);
    [simpl; lia|].
  simpl in Hs. rewrite Z2Nat.id in Hs by exact Hk0.
  exists s. split; [exact Hr|]. split; [|split].
  - rewrite Ht, Ht0. simpl. rewrite count_replicate. simpl. lia.
  - unfold Len. rewrite Hs. reflexivity.
  - intros s' i Hcall Hi. injection Hcall as <-. simpl in Hi |- *.
    rewrite Hi. simpl. rewrite Hs. simpl. rewrite Z.ltb_irrefl. reflexivity.
Qed.

(** A group with limit 2. *)
Lemma limit_is_reached_witness :
  exists s, reachable (after Collect [2] []) s /\
    count running (threads s) = 2 /\ Len (grp s) = 2 /\
    forall s' i, step (Call Go) s = Next s' ->
      threads s' !! i = Some Go_add_sem -> step (Step i) s' = Blocked.
Proof.
  assert (HN : New false Collect (map WithLimit [2]) =
               Some (after Collect [2] [])) by (vm_compute; reflexivity).
  assert (Hl : last [2] = Some 2) by reflexivity.
  exact (limit_is_reached false Collect [2] _ 2 HN Hl).
Defined.

Lemma count_pos (f : pc -> bool) (ts : list pc) :
  1 <= count f ts -> exists i p, ts !! i = Some p /\ f p = true.
Proof.
  induction ts as [|x ts IH]; simpl; [lia|]. intros H.
  destruct (f x) eqn:Hx.
  - exists 0%nat, x. auto.
  - destruct IH as (i & p & Hi & Hp); [simpl in H; lia|].
    exists (S i), p. auto.
Qed.

Lemma Ctx_inv_New (pd : bool) (mode : FailureMode) (ns : list Z) (s0 : State) :
  New pd mode (map WithLimit ns) = Some s0 -> Ctx_inv s0.
Proof.
  intros H. apply New_fields in H.
  destruct H as (Ht & Hp & Hc & _ & _ & _ & _ & Ho & _).
  split; rewrite ?Ht, ?Hp, ?Hc, ?Ho; simpl; auto; try congruence; try lia.
Qed.

Lemma Ctx_inv_step (a : action) (s s' : State) :
  Ctx_inv s -> step a s = Next s' -> Ctx_inv s'.
Proof.
  intros [Hcause Hpar Honce Hcall Hmode] Hstep.
  destruct a as [m|i|i r|i j|].
  - injection Hstep as <-. split; simpl; rewrite ?count_app; auto.
    + intros Hc. destruct (Hcause Hc) as [?|[?|?]]; auto.
      right. right. pose proof (count_nonneg past_Cancel [entry m]). lia.
    + intros Hn Hp. apply Hcall; [exact Hn|]. destruct m; simpl in Hp; lia.
  - case_Step Hstep; split; simpl; rewrite ?(count_insert _ _ _ _ _ Hi);
      simpl; auto; try congruence; try lia.
    all: try (intros Hc; destruct (Hcause Hc) as [?|[?|?]]; auto;
              right; right; lia).
    all: try (intros Hn Hp; apply Hcall; [exact Hn|lia]).
    all: intros _; right; right;
      pose proof (count_nonneg past_Cancel (threads s)); lia.
  - case_Return Hstep. split; simpl; rewrite ?(count_insert _ _ _ _ _ Hi);
      simpl; auto.
    + intros Hc. destruct (Hcause Hc) as [?|[?|?]]; auto.
      right. right. destruct r; simpl; lia.
    + intros Hn Hp. apply Hcall; [exact Hn|]. destruct r; simpl in Hp; lia.
  - destruct (step_Handoff _ _ _ _ Hstep) as (c & r & _ & _ & _ & _ & -> & Hf).
    split; simpl; auto.
    + intros Hc. destruct (Hcause Hc) as [?|[?|?]]; auto.
      right. right. specialize (Hf past_Cancel). simpl in Hf. lia.
    + intros Hn Hp. apply Hcall; [exact Hn|].
      specialize (Hf past_Cancel). simpl in Hf. lia.
  - injection Hstep as <-. split; simpl; auto.
Qed.

Lemma Ctx_inv_run (acts : list action) (s s' : State) :
  Ctx_inv s -> run acts s = Some s' -> Ctx_inv s'.
Proof.
  revert s. induction acts as [|a acts IH]; intros s HI Hr; simpl in Hr.
  - injection Hr as <-. exact HI.
  - destruct (step a s) as [s1| | |] eqn:Hs; try discriminate.
    eapply IH; [|exact Hr]. eapply Ctx_inv_step; eassumption.
Qed.

(** The derived context is done exactly when the parent is done, or the
    [FailFast] latch is set, or some call of [Cancel] or [Wait] has passed
    its call of the cancel function; the latch is set exactly in [FailFast]
    mode with an error stored; and a done context stays done. *)
Theorem context_done_iff (pd : bool) (mode : FailureMode) (ns : list Z)
    (s0 s : State) :
  New pd mode (map WithLimit ns) = Some s0 -> reachable s0 s ->
  (ctx s = true <->
     parent s = true \/ errOnce (grp s) = true \/
     exists i p, threads s !! i = Some p /\ past_Cancel p = true) /\
  (errOnce (grp s) = true <->
     failureMode (grp s) = FailFast /\ err (grp s) <> None) /\
  (forall acts s', run acts s = Some s' -> ctx s = true -> ctx s' = true).
Proof.
  intros HN [acts0 Hr0].
  pose proof (Ctx_inv_run _ _ _ (Ctx_inv_New _ _ _ _ HN) Hr0) as HC.
  pose proof (Inv_run _ _ _ (Inv_New _ _ _ _ HN) Hr0) as HI.
  destruct (run_config _ _ _ Hr0) as (_ & Hc & _).
  destruct (New_fields _ _ _ _ HN) as (_ & _ & _ & Hc0 & _).
  assert (Hn : cancel (grp s) <> None) by congruence.
  split; [|split].
  - split.
    + intros H. destruct (ctx_cause _ HC H) as [?|[?|Hp]]; auto.
      right. right.
      destruct (count_pos past_Cancel (threads s) Hp) as (i & p & Hi & Hp').
      eauto.
    + intros [H|[H|(i & p & Hi & Hp)]].
      * apply (ctx_parent _ HC H).
      * apply (ctx_once _ HC Hn H).
      * apply (ctx_called _ HC Hn). eapply count_lookup; eassumption.
  - split.
    + intros Ho. split; [|exact (inv_once _ HI Ho)].
      destruct (failureMode (grp s)) eqn:Hm; [|reflexivity].
      rewrite (once_mode _ HC Hm) in Ho. discriminate.
    + intros [Hm He]. destruct (errOnce (grp s)) eqn:Ho; [reflexivity|].
      contradiction He. apply (inv_latch _ HI Hm Ho).
  - intros acts s' Hr Hc'. eapply run_ctx; eassumption.
Qed.

(** A task has failed under [FailFast]: the latch is set, the context done. *)
Lemma context_done_iff_witness :
  let acts := Go_uninterrupted 0 ++
              [Return 0%nat (Some error1); Step 0%nat; Step 0%nat] in
  let s := after FailFast [] acts in
  errOnce (grp s) = true /\ ctx s = true /\
  failureMode (grp s) = FailFast /\ err (grp s) <> None.
Proof.
  intros acts s.
  assert (HN : New false FailFast (map WithLimit []) =
               Some (after FailFast [] [])) by (vm_compute; reflexivity).
  assert (Hr : reachable (after FailFast [] []) s)
    by (exists acts; vm_compute; reflexivity).
  assert (Ho : errOnce (grp s) = true) by (vm_compute; reflexivity).
  destruct (context_done_iff false FailFast [] _ s HN Hr) as (H1 & H2 & _).
  split; [exact Ho|]. split; [exact (proj2 H1 (or_intror (or_introl Ho)))|].
  exact (proj1 H2 Ho).
Defined.

Lemma reports_insert_same (ts : list pc) (i : nat) (p q : pc) :
  ts !! i = Some p -> reported q = reported p ->
  reports (<[i:=q]> ts) = reports ts.
Proof.
  unfold reports. revert i. induction ts as [|x ts IH]; intros [|i] Hi Hq;
    simpl in *; try discriminate.
  - injection Hi as ->. rewrite Hq. reflexivity.
  - specialize (IH i Hi Hq). unfold omap in IH. rewrite IH. reflexivity.
Qed.

Lemma reports_insert_new (ts : list pc) (i : nat) (p q : pc) (e : error) :
  ts !! i = Some p -> reported p = None -> reported q = Some e ->
  reports (<[i:=q]> ts) ≡ₚ e :: reports ts.
Proof.
  unfold reports. revert i. induction ts as [|x ts IH]; intros [|i] Hi Hp Hq;
    simpl in *; try discriminate.
  - injection Hi as ->. rewrite Hp, Hq. reflexivity.
  - specialize (IH i Hi Hp Hq). unfold omap in IH.
    destruct (reported x); simpl; [|exact IH].
    rewrite IH. apply Permutation_swap.
Qed.

Lemma reports_snoc (ts : list pc) (m : method) :
  reports (ts ++ [entry m]) = reports ts.
Proof.
  unfold reports. rewrite omap_app. destruct m; simpl; apply app_nil_r.
Qed.

Lemma slot_errors_Join (h : addr) (o : option error) (e : error) :
  slot_errors (Join h [o; Some e]) = slot_errors o ++ [e].
Proof. destruct o; reflexivity. Qed.

(** A step either is the failure-mode statement of a goroutine, which adds
    its error to the reports, or leaves the reports and the error slot as
    they are. *)
Lemma step_reports (a : action) (s s' : State) :
  step a s = Next s' ->
  (exists i e, a = Step i /\ threads s !! i = Some (Task_mode e) /\
     reports (threads s') ≡ₚ e :: reports (threads s)) \/
  (reports (threads s') = reports (threads s) /\
   err (grp s') = err (grp s)).
Proof.
  intros Hstep. destruct a as [m|i|i r|i j|].
  - injection Hstep as <-. right. simpl. rewrite reports_snoc. auto.
  - simpl in Hstep. destruct (threads s !! i) as [p|] eqn:Hp; [|discriminate].
    destruct p; simpl in Hstep;
      unfold errOnce_Do, first_error, collect_error, Cancel in Hstep;
      simpl in Hstep; split_matches Hstep; try discriminate;
      injection Hstep as <-; simpl;
      first
        [ right; split; [apply (reports_insert_same _ _ _ _ Hp); reflexivity
                        |reflexivity]
        | left; eexists _, _; split; [reflexivity|]; split; [exact Hp|];
          apply (reports_insert_new _ _ _ _ _ Hp); reflexivity ].
  - case_Return Hstep. right. simpl. split; [|reflexivity].
    apply (reports_insert_same _ _ _ _ Hi). destruct r; reflexivity.
  - destruct (step_Handoff _ _ _ _ Hstep) as (c & r & _ & _ & Hi & Hj & -> & _).
    right. simpl. split; [|reflexivity].
    assert (Hne : i <> j) by congruence.
    rewrite (reports_insert_same _ j (Task_done_sem r));
      [|rewrite list_lookup_insert_ne by exact Hne; exact Hj|reflexivity].
    apply (reports_insert_same _ _ _ _ Hi). reflexivity.
  - injection Hstep as <-. right. auto.
Qed.

Lemma run_Collect_members (acts : list action) (s0 s : State) :
  failureMode (grp s0) = Collect ->
  slot_errors (err (grp s0)) ≡ₚ reports (threads s0) ->
  run acts s0 = Some s ->
  slot_errors (err (grp s)) ≡ₚ reports (threads s).
Proof.
  revert s0. induction acts as [|a acts IH]; intros s0 Hm H0 Hrun;
    simpl in Hrun.
  - injection Hrun as <-. exact H0.
  - destruct (step a s0) as [s1| | |] eqn:Hstep; try discriminate.
    apply (IH s1); [| |exact Hrun].
    + destruct (step_config _ _ _ Hstep) as (-> & _). exact Hm.
    + destruct (step_reports _ _ _ Hstep)
        as [(i & e & -> & Hi & Hrep)|[Hrep Herr]].
      * rewrite Hrep. simpl in Hstep. rewrite Hi in Hstep. simpl in Hstep.
        rewrite Hm in Hstep. injection Hstep as <-. simpl.
        rewrite slot_errors_Join, <- H0. symmetry.
        apply Permutation_cons_append.
      * rewrite Hrep, Herr. exact H0.
Qed.

Lemma length_reports (ts : list pc) :
  Z.of_nat (length (reports ts)) = count has_reported ts.
Proof.
  unfold reports. induction ts as [|p ts IH]; [reflexivity|].
  simpl. destruct p as [| | | | | | |[]|[]|[]| | | | | | | |]; simpl;
    rewrite ?Nat2Z.inj_succ; unfold omap in IH; lia.
Qed.

(** Collect: the members of the aggregate in the error slot are exactly
    the errors the goroutines have reported, each as often as reported. *)
Theorem Collect_aggregate_members (pd : bool) (ns : list Z) (s0 s : State) :
  New pd Collect (map WithLimit ns) = Some s0 ->
  reachable s0 s ->
  slot_errors (err (grp s)) ≡ₚ reports (threads s) /\
  Z.of_nat (length (slot_errors (err (grp s)))) = count has_reported (threads s).
Proof.
  intros HN [acts Hrun].
  assert (Hperm : slot_errors (err (grp s)) ≡ₚ reports (threads s)).
  { destruct (New_fields _ _ _ _ HN)
      as (Hth & _ & _ & _ & _ & Herr & _ & _ & Hm & _).
    apply (run_Collect_members acts s0 s Hm); [|exact Hrun].
    rewrite Herr, Hth. reflexivity. }
  split; [exact Hperm|].
  rewrite (Permutation_length Hperm). apply length_reports.
Qed.

(** Two failed tasks, the second one reporting first. *)
Lemma Collect_aggregate_members_witness :
  let acts := Go_uninterrupted 0 ++ Go_uninterrupted 1 ++
              fail_uninterrupted 1 error2 ++ fail_uninterrupted 0 error1 in
  let s := after Collect [] acts in
  slot_errors (err (grp s)) = [error2; error1] /\
  slot_errors (err (grp s)) ≡ₚ reports (threads s) /\
  Z.of_nat (length (slot_errors (err (grp s)))) =
    count has_reported (threads s).
Proof.
  intros acts s.
  assert (HN : New false Collect (map WithLimit []) =
               Some (after Collect [] [])) by (vm_compute; reflexivity).
  assert (Hr : reachable (after Collect [] []) s)
    by (exists acts; vm_compute; reflexivity).
  assert (He : slot_errors (err (grp s)) = [error2; error1])
    by (vm_compute; reflexivity).
  split; [exact He|].
  exact (Collect_aggregate_members false [] _ s HN Hr).
Defined.

(** Where a returned [Wait] comes from: it had returned before the step, or
    the step is its return statement, which reads the error slot. *)
Lemma step_Wait_returned (a : action) (s s' : State) (i : nat)
    (r : option error) :
  step a s = Next s' -> threads s' !! i = Some (Wait_returned r) ->
  threads s !! i = Some (Wait_returned r) \/
  (a = Step i /\ threads s !! i = Some Wait_return /\ r = err (grp s) /\
   err (grp s') = err (grp s)).
Proof.
  intros Hstep Hi'. destruct a as [m|j|j r'|j k|].
  - injection Hstep as <-. simpl in Hi'. left.
    destruct (decide (i < length (threads s))%nat) as [Hlt|Hge].
    + rewrite lookup_app_l in Hi' by exact Hlt. exact Hi'.
    + rewrite lookup_app_r in Hi' by lia.
      destruct (i - length (threads s))%nat; simpl in Hi';
        [destruct m; discriminate|discriminate].
  - simpl in Hstep. destruct (threads s !! j) as [p|] eqn:Hj; [|discriminate].
    destruct (decide (j = i)) as [->|Hne].
    + destruct p; simpl in Hstep;
        unfold errOnce_Do, first_error, collect_error, Cancel in Hstep;
        simpl in Hstep; split_matches Hstep; try discriminate;
        injection Hstep as <-; simpl in Hi';
        rewrite list_lookup_insert_eq in Hi' by (apply (lookup_lt_Some _ _ _ Hj));
        try discriminate Hi'.
      right. injection Hi' as <-. auto.
    + left.
      destruct p; simpl in Hstep;
        unfold errOnce_Do, first_error, collect_error, Cancel in Hstep;
        simpl in Hstep; split_matches Hstep; try discriminate;
        injection Hstep as <-; simpl in Hi';
        rewrite list_lookup_insert_ne in Hi' by exact Hne; exact Hi'.
  - case_Return Hstep. simpl in Hi'. left.
    destruct (decide (j = i)) as [->|Hne].
    + rewrite list_lookup_insert_eq in Hi' by (apply (lookup_lt_Some _ _ _ Hi)).
      destruct r'; discriminate.
    + rewrite list_lookup_insert_ne in Hi' by exact Hne. exact Hi'.
  - destruct (step_Handoff _ _ _ _ Hstep) as (c & r0 & _ & _ & Hj & Hk & -> & _).
    simpl in Hi'. left.
    destruct (decide (k = i)) as [->|Hne].
    + rewrite list_lookup_insert_eq in Hi'
        by (rewrite length_insert; apply (lookup_lt_Some _ _ _ Hk)).
      discriminate.
    + rewrite list_lookup_insert_ne in Hi' by exact Hne.
      destruct (decide (j = i)) as [->|Hne'].
      * rewrite list_lookup_insert_eq in Hi' by (apply (lookup_lt_Some _ _ _ Hj)).
        discriminate.
      * rewrite list_lookup_insert_ne in Hi' by exact Hne'. exact Hi'.
  - injection Hstep as <-. left. exact Hi'.
Qed.

Lemma elem_of_reports (e : error) (ts : list pc) :
  e ∈ reports ts <-> exists i p, ts !! i = Some p /\ reported p = Some e.
Proof.
  unfold reports. rewrite list_elem_of_omap. split.
  - intros (p & Hin & Hp). apply list_elem_of_lookup in Hin as [i Hi]. eauto.
  - intros (i & p & Hi & Hp). exists p. split; [|exact Hp].
    apply list_elem_of_lookup. eauto.
Qed.

(** FailFast: the error in the slot is the error some goroutine reported,
    it is the only non-nil error that any call of [Wait] has returned, and
    the latch is set from the moment it is stored. *)
Theorem FailFast_result_reported (pd : bool) (ns : list Z) (s0 s : State) :
  New pd FailFast (map WithLimit ns) = Some s0 ->
  reachable s0 s ->
  (forall e, err (grp s) = Some e ->
     errOnce (grp s) = true /\ ctx s = true /\
     exists i p, threads s !! i = Some p /\ reported p = Some e) /\
  (forall i e, threads s !! i = Some (Wait_returned (Some e)) ->
     err (grp s) = Some e) /\
  (forall i j e e', threads s !! i = Some (Wait_returned (Some e)) ->
     threads s !! j = Some (Wait_returned (Some e')) -> e = e').
Proof.
  intros HN Hreach.
  assert (Hgoal :
    (forall e, err (grp s) = Some e -> e ∈ reports (threads s)) /\
    (forall i e, threads s !! i = Some (Wait_returned (Some e)) ->
       err (grp s) = Some e)).
  { destruct Hreach as [acts Hrun].
    pose proof (Inv_New _ _ _ _ HN) as HI.
    destruct (New_fields _ _ _ _ HN)
      as (Hth & _ & _ & _ & _ & Herr & _ & _ & Hm & _).
    assert (H0 : (forall e, err (grp s0) = Some e -> e ∈ reports (threads s0)) /\
      (forall i e, threads s0 !! i = Some (Wait_returned (Some e)) ->
         err (grp s0) = Some e)).
    { split; [intros e He; congruence|].
      intros i e Hi. rewrite Hth in Hi. discriminate. }
    clear HN Hth Herr. revert s0 HI Hm H0 Hrun.
    induction acts as [|a acts IH]; intros s0 HI Hm [H1 H2] Hrun;
      simpl in Hrun.
    - injection Hrun as <-. auto.
    - destruct (step a s0) as [s1| | |] eqn:Hstep; try discriminate.
      apply (IH s1); [exact (Inv_step _ _ _ HI Hstep)|
        destruct (step_config _ _ _ Hstep) as (-> & _); exact Hm| |exact Hrun].
      split.
      + intros e He.
        destruct (step_reports _ _ _ Hstep)
          as [(i & e0 & -> & Hi & Hrep)|[Hrep Herr]].
        * rewrite Hrep. simpl in Hstep. rewrite Hi in Hstep. simpl in Hstep.
          rewrite Hm in Hstep. unfold errOnce_Do, first_error, Cancel in Hstep.
          destruct (errOnce (grp s0)) eqn:Ho.
          -- injection Hstep as <-. simpl in He. right. exact (H1 e He).
          -- simpl in Hstep. split_matches Hstep; injection Hstep as <-;
               simpl in He; injection He as <-; left.
        * rewrite Hrep. rewrite Herr in He. exact (H1 e He).
      + intros i e Hi'.
        destruct (step_Wait_returned _ _ _ _ _ Hstep Hi')
          as [Hi|(-> & Hi & Hr & Herr)].
        * pose proof (H2 i e Hi) as He.
          destruct (errOnce (grp s0)) eqn:Ho.
          -- destruct (step_latched _ _ _ Hm Ho Hstep) as [_ ->]. exact He.
          -- rewrite (inv_latch _ HI Hm Ho) in He. discriminate.
        * rewrite Herr. symmetry. exact Hr. }
  destruct Hgoal as [H1 H2]. split; [|split].
  - intros e He.
    pose proof (Inv_reachable _ _ _ _ _ HN Hreach) as HI.
    destruct Hreach as [acts Hrun].
    destruct (New_fields _ _ _ _ HN)
      as (_ & _ & _ & Hc & _ & _ & _ & _ & Hm & _).
    destruct (run_config _ _ _ Hrun) as (Hm' & Hc' & _).
    rewrite <- Hm' in Hm. rewrite <- Hc' in Hc.
    destruct (Ctx_inv_run _ _ _ (Ctx_inv_New _ _ _ _ HN) Hrun)
      as [_ _ Ho _ _].
    assert (Hcn : cancel (grp s) <> None) by (rewrite Hc; discriminate).
    assert (Honce : errOnce (grp s) = true).
    { destruct (errOnce (grp s)) eqn:Ho'; [reflexivity|].
      rewrite (inv_latch _ HI Hm Ho') in He. discriminate. }
    split; [exact Honce|]. split; [exact (Ho Hcn Honce)|].
    apply elem_of_reports. exact (H1 e He).
  - exact H2.
  - intros i j e e' Hi Hj. pose proof (H2 i e Hi). pose proof (H2 j e' Hj).
    congruence.
Qed.

(** Two failed tasks, the second one reporting first, then [Wait]. *)
Lemma FailFast_result_reported_witness :
  let acts := Go_uninterrupted 0 ++ Go_uninterrupted 1 ++
              fail_uninterrupted 1 error2 ++ fail_uninterrupted 0 error1 ++
              Wait_uninterrupted 2 in
  let s := after FailFast [] acts in
  threads s !! 2%nat = Some (Wait_returned (Some error2)) /\
  err (grp s) = Some error2 /\
  errOnce (grp s) = true /\ ctx s = true /\
  exists i p, threads s !! i = Some p /\ reported p = Some error2.
Proof.
  intros acts s.
  assert (HN : New false FailFast (map WithLimit []) =
               Some (after FailFast [] [])) by (vm_compute; reflexivity).
  assert (Hr : reachable (after FailFast [] []) s)
    by (exists acts; vm_compute; reflexivity).
  assert (Hi : threads s !! 2%nat = Some (Wait_returned (Some error2)))
    by (vm_compute; reflexivity).
  destruct (FailFast_result_reported false [] _ s HN Hr) as (H1 & H2 & _).
  split; [exact Hi|].
  pose proof (H2 2%nat error2 Hi) as He.
  split; [exact He|]. exact (H1 error2 He).
Defined.

(** ** Progress: the tasks can always finish *)

Lemma rank_nonneg (p : pc) : 0 <= rank p.
Proof. destruct p; simpl; lia. Qed.

Lemma work_nonneg (ts : list pc) : 0 <= work ts.
Proof.
  induction ts as [|p ts IH]; simpl; [lia|].
  pose proof (rank_nonneg p). lia.
Qed.

Lemma work_insert (ts : list pc) (i : nat) (p q : pc) :
  ts !! i = Some p -> work (<[i:=q]> ts) = work ts - rank p + rank q.
Proof.
  revert i. induction ts as [|x ts IH]; intros [|i] Hi; simpl in *;
    try discriminate.
  - injection Hi as ->. lia.
  - rewrite (IH i Hi). lia.
Qed.

Lemma work_pos (ts : list pc) :
  0 < work ts -> exists i p, ts !! i = Some p /\ 0 < rank p.
Proof.
  induction ts as [|x ts IH]; simpl; [lia|]. intros H.
  destruct (decide (0 < rank x)) as [Hx|Hx].
  - exists 0%nat, x. auto.
  - destruct IH as (i & p & Hi & Hp); [lia|]. exists (S i), p. auto.
Qed.

Lemma work_zero (f : pc -> bool) (ts : list pc) :
  (forall p, f p = true -> 0 < rank p) -> work ts = 0 -> count f ts = 0.
Proof.
  intros Hf. induction ts as [|x ts IH]; simpl; [reflexivity|]. intros H.
  pose proof (rank_nonneg x). pose proof (work_nonneg ts).
  rewrite IH by lia. destruct (f x) eqn:Hx; [|reflexivity].
  pose proof (Hf x Hx). lia.
Qed.

(** A goroutine that holds what it needs executes its next statement. *)
Lemma free_step (res : nat -> option error) (s : State) (i : nat) (p : pc) :
  Inv s -> threads s !! i = Some p -> free p = true ->
  exists a s', (a = Step i \/ a = Return i (res i)) /\ step a s = Next s' /\
    work (threads s') < work (threads s).
Proof.
  intros HI Hi Hp. destruct p; try discriminate Hp.
  - exists (Step i). eexists. split; [auto|]. simpl. rewrite Hi. simpl.
    split; [reflexivity|]. simpl. rewrite (work_insert _ _ _ _ Hi). simpl. lia.
  - exists (Step i). eexists. split; [auto|]. simpl. rewrite Hi. simpl.
    split; [reflexivity|]. simpl. rewrite (work_insert _ _ _ _ Hi). simpl. lia.
  - exists (Return i (res i)). eexists. split; [auto|]. simpl. rewrite Hi.
    split; [reflexivity|]. simpl. rewrite (work_insert _ _ _ _ Hi).
    destruct (res i); simpl; lia.
  - exists (Step i). simpl. rewrite Hi. simpl.
    destruct (failureMode (grp s)); eexists; (split; [auto|]);
      (split; [reflexivity|]); simpl;
      unfold errOnce_Do, first_error, Cancel; simpl;
      repeat match goal with |- context [match ?x with _ => _ end] =>
        destruct x end; simpl;
      rewrite (work_insert _ _ _ _ Hi); simpl; lia.
  - exists (Step i). simpl. rewrite Hi. simpl.
    assert (Hl : errLock (grp s) = true).
    { pose proof (inv_lock _ HI) as Hl.
      pose proof (count_lookup critical _ _ _ Hi eq_refl).
      destruct (errLock (grp s)); [reflexivity|simpl in Hl; lia]. }
    rewrite Hl. eexists. split; [auto|]. split; [reflexivity|]. simpl.
    rewrite (work_insert _ _ _ _ Hi). simpl. lia.
  - exists (Step i). simpl. rewrite Hi. simpl.
    destruct (sem (grp s)) as [c|] eqn:Hc.
    + destruct (inv_sem _ HI c Hc) as [Hq _].
      pose proof (count_lookup holds _ _ _ Hi eq_refl).
      assert (Hpos : (0 <? qcount c) = true) by (apply Z.ltb_lt; lia).
      rewrite Hpos. eexists. split; [auto|]. split; [reflexivity|]. simpl.
      rewrite (work_insert _ _ _ _ Hi). simpl. lia.
    + eexists. split; [auto|]. split; [reflexivity|]. simpl.
      rewrite (work_insert _ _ _ _ Hi). simpl. lia.
  - exists (Step i). simpl. rewrite Hi. simpl.
    pose proof (inv_wg _ HI) as Hw.
    pose proof (count_lookup outstanding _ _ _ Hi eq_refl).
    assert (Hge : (wg (grp s) - 1 <? 0) = false) by (apply Z.ltb_ge; lia).
    rewrite Hge. eexists. split; [auto|]. split; [reflexivity|]. simpl.
    rewrite (work_insert _ _ _ _ Hi). simpl. lia.
Qed.

(** While a goroutine made by [Go] has statements left and the limit, if
    any, is positive, one of them can execute its next statement. *)
Lemma progress (res : nat -> option error) (s : State) :
  Inv s -> (forall c, sem (grp s) = Some c -> 0 < cap c) ->
  0 < work (threads s) ->
  exists a s', (exists i, a = Step i \/ a = Return i (res i)) /\
    step a s = Next s' /\ work (threads s') < work (threads s).
Proof.
  intros HI Hcap Hwork.
  destruct (decide (1 <= count free (threads s))) as [Hfree|Hnone].
  - destruct (count_pos _ _ Hfree) as (i & p & Hi & Hp).
    destruct (free_step res s i p HI Hi Hp) as (a & s' & Ha & Hs & Hw).
    exists a, s'. eauto.
  - assert (Hz : count free (threads s) = 0)
      by (pose proof (count_nonneg free (threads s)); lia).
    assert (Hcrit : count critical (threads s) = 0).
    { pose proof (count_le critical free (threads s)) as H.
      pose proof (count_nonneg critical (threads s)).
      assert (count critical (threads s) <= count free (threads s)); [|lia].
      apply H. intros p; destruct p; simpl; congruence. }
    assert (Hl : errLock (grp s) = false).
    { pose proof (inv_lock _ HI) as Hl. rewrite Hcrit in Hl.
      destruct (errLock (grp s)); [discriminate|reflexivity]. }
    destruct (decide (1 <= count at_Lock (threads s))) as [Hlock|Hnolock].
    + destruct (count_pos _ _ Hlock) as (i & p & Hi & Hp).
      destruct p; try discriminate Hp.
      exists (Step i). eexists. split; [eauto|]. simpl. rewrite Hi. simpl.
      rewrite Hl. split; [reflexivity|]. simpl.
      rewrite (work_insert _ _ _ _ Hi). simpl. lia.
    + assert (Hzl : count at_Lock (threads s) = 0)
        by (pose proof (count_nonneg at_Lock (threads s)); lia).
      destruct (work_pos _ Hwork) as (i & p & Hi & Hp).
      pose proof (count_zero _ _ _ _ Hz Hi) as Hf.
      pose proof (count_zero _ _ _ _ Hzl Hi) as Hk.
      destruct p; try discriminate Hf; try discriminate Hk;
        try (simpl in Hp; lia).
      assert (Hholds : count holds (threads s) = 0).
      { pose proof (count_le_add holds free at_Lock (threads s)) as H.
        pose proof (count_nonneg holds (threads s)).
        assert (count holds (threads s) <=
                count free (threads s) + count at_Lock (threads s)); [|lia].
        apply H. intros p; destruct p; simpl; auto. }
      exists (Step i). simpl. rewrite Hi. simpl.
      destruct (sem (grp s)) as [c|] eqn:Hc.
      * destruct (inv_sem _ HI c Hc) as [Hq _]. pose proof (Hcap c eq_refl).
        assert (Hlt : (qcount c <? cap c) = true) by (apply Z.ltb_lt; lia).
        rewrite Hlt. eexists. split; [eauto|]. split; [reflexivity|]. simpl.
        rewrite (work_insert _ _ _ _ Hi). simpl. lia.
      * eexists. split; [eauto|]. split; [reflexivity|]. simpl.
        rewrite (work_insert _ _ _ _ Hi). simpl. lia.
Qed.

Lemma finish_from (res : nat -> option error) (n : nat) (s : State) :
  Inv s -> (forall c, sem (grp s) = Some c -> 0 < cap c) ->
  work (threads s) <= Z.of_nat n ->
  exists acts s', run acts s = Some s' /\
    Forall (fun a => exists i, a = Step i \/ a = Return i (res i)) acts /\
    work (threads s') = 0.
Proof.
  revert s. induction n as [|n IH]; intros s HI Hcap Hn.
  - exists [], s. pose proof (work_nonneg (threads s)).
    split; [reflexivity|]. split; [constructor|lia].
  - destruct (decide (0 < work (threads s))) as [Hpos|Hzero].
    + destruct (progress res s HI Hcap Hpos) as (a & s1 & Ha & Hs & Hw).
      destruct (IH s1) as (acts & s' & Hr & Hall & Hdone).
      * exact (Inv_step _ _ _ HI Hs).
      * intros c Hc. destruct (step_config _ _ _ Hs) as (_ & _ & Hsem).
        rewrite Hc in Hsem. simpl in Hsem.
        destruct (sem (grp s)) as [c0|] eqn:Hc0; [|discriminate].
        injection Hsem as Heq. rewrite Heq. apply Hcap. reflexivity.
      * lia.
      * exists (a :: acts), s'. simpl. rewrite Hs.
        split; [exact Hr|]. split; [constructor; assumption|exact Hdone].
    + exists [], s. pose proof (work_nonneg (threads s)).
      split; [reflexivity|]. split; [constructor|lia].
Qed.

(** From every state of a group without limit or with a positive limit,
    whatever the tasks return, the goroutines made by [Go] can run to their
    end without any further call: no schedule leads to a deadlock among
    tasks. Then the counter is zero, no capacity is held, the mutex is free
    and every call of [Go] has become a goroutine that has ended. *)
Theorem tasks_can_finish (pd : bool) (mode : FailureMode) (ns : list Z)
    (s0 s : State) (res : nat -> option error) :
  New pd mode (map WithLimit ns) = Some s0 ->
  (forall k, last ns = Some k -> 0 < k) ->
  reachable s0 s ->
  exists acts s',
    run acts s = Some s' /\
    Forall (fun a => exists i, a = Step i \/ a = Return i (res i)) acts /\
    length (threads s') = length (threads s) /\
    wg (grp s') = 0 /\ Len (grp s') = 0 /\ errLock (grp s') = false /\
    forall i p, threads s' !! i = Some p -> of_Go p = true ->
      exists r, p = Task_exit r.
Proof.
  intros HN Hk Hreach.
  pose proof (Inv_reachable _ _ _ _ _ HN Hreach) as HI.
  assert (Hcap : forall c, sem (grp s) = Some c -> 0 < cap c).
  { intros c Hc. destruct Hreach as [acts0 Hr0].
    destruct (run_config _ _ _ Hr0) as (_ & _ & Hsem).
    rewrite (New_sem _ _ _ _ HN) in Hsem. rewrite Hc in Hsem. simpl in Hsem.
    destruct (last ns) as [k|]; [|discriminate]. simpl in Hsem.
    injection Hsem as ->. apply Hk. reflexivity. }
  pose proof (work_nonneg (threads s)) as Hnn.
  destruct (finish_from res (Z.to_nat (work (threads s))) s HI Hcap)
    as (acts & s' & Hr & Hall & Hdone); [lia|].
  exists acts, s'. split; [exact Hr|]. split; [exact Hall|].
  pose proof (Inv_run _ _ _ HI Hr) as HI'.
  assert (Hout : count outstanding (threads s') = 0)
    by (apply work_zero; [intros p; destruct p; simpl; intros; try lia; discriminate|exact Hdone]).
  assert (Hholds : count holds (threads s') = 0)
    by (apply work_zero; [intros p; destruct p; simpl; intros; try lia; discriminate|exact Hdone]).
  assert (Hcrit : count critical (threads s') = 0)
    by (apply work_zero; [intros p; destruct p; simpl; intros; try lia; discriminate|exact Hdone]).
  split; [|split; [|split; [|split]]].
  - clear -Hr Hall. revert s Hr. induction Hall as [|a acts Ha _ IH];
      intros s Hr; simpl in Hr.
    + injection Hr as <-. reflexivity.
    + destruct (step a s) as [s1| | |] eqn:Hs; try discriminate.
      rewrite (IH s1 Hr). destruct Ha as [i [->| ->]].
      * case_Step Hs; simpl; apply length_insert.
      * case_Return Hs. simpl. apply length_insert.
  - rewrite (inv_wg _ HI'). exact Hout.
  - unfold Len. destruct (sem (grp s')) as [c|] eqn:Hc; [|reflexivity].
    destruct (inv_sem _ HI' c Hc) as [-> _]. exact Hholds.
  - pose proof (inv_lock _ HI') as Hl. rewrite Hcrit in Hl.
    destruct (errLock (grp s')); [discriminate|reflexivity].
  - intros i p Hi Hp.
    assert (Hrk : count (fun q => 0 <? rank q) (threads s') = 0)
      by (apply work_zero; [intros q Hq; apply Z.ltb_lt; exact Hq|exact Hdone]).
    pose proof (count_zero _ _ _ _ Hrk Hi) as Hz. simpl in Hz.
    destruct p; try discriminate Hp; try discriminate Hz. eauto.
Qed.

(** Limit 1, one task running and a second call of [Go] waiting at the
    channel: both can finish. *)
Lemma tasks_can_finish_witness :
  let acts := Go_uninterrupted 0 ++ [Call Go] in
  let s := after Collect [1] acts in
  let res := fun _ : nat => @None error in
  threads s !! 1%nat = Some Go_add_sem /\
  exists rest s',
    run rest s = Some s' /\
    Forall (fun a => exists i, a = Step i \/ a = Return i (res i)) rest /\
    length (threads s') = length (threads s) /\
    wg (grp s') = 0 /\ Len (grp s') = 0 /\ errLock (grp s') = false /\
    forall i p, threads s' !! i = Some p -> of_Go p = true ->
      exists r, p = Task_exit r.
Proof.
  intros acts s res.
  assert (HN : New false Collect (map WithLimit [1]) =
               Some (after Collect [1] [])) by (vm_compute; reflexivity).
  assert (Hk : forall k, last [1] = Some k -> 0 < k)
    by (intros k Hk; injection Hk as <-; lia).
  assert (Hr : reachable (after Collect [1] []) s)
    by (exists acts; vm_compute; reflexivity).
  assert (Hi : threads s !! 1%nat = Some Go_add_sem)
    by (vm_compute; reflexivity).
  split; [exact Hi|].
  exact (tasks_can_finish false Collect [1] _ s res HN Hk Hr).
Defined.
(** ** Calls of [Wait] after the tasks *)

Lemma run_Wait_returned (acts : list action) (s s' : State) (i : nat)
    (r : option error) :
  run acts s = Some s' -> threads s' !! i = Some (Wait_returned r) ->
  threads s !! i = Some (Wait_returned r) \/
  exists acts1 acts2 sm,
    acts = acts1 ++ acts2 /\ run acts1 s = Some sm /\
    run acts2 sm = Some s' /\ r = err (grp sm).
Proof.
  revert s. induction acts as [|a acts IH]; intros s Hrun Hi'; simpl in Hrun.
  - injection Hrun as <-. left. exact Hi'.
  - destruct (step a s) as [s1| | |] eqn:Hstep; try discriminate.
    destruct (IH s1 Hrun Hi') as [Hi1|(acts1 & acts2 & sm & -> & Hr1 & Hr2 & Hr)].
    + destruct (step_Wait_returned _ _ _ _ _ Hstep Hi1)
        as [Hi|(-> & _ & Hr & _)]; [left; exact Hi|].
      right. exists [], (Step i :: acts), s.
      split; [reflexivity|]. split; [reflexivity|]. split; [|exact Hr].
      cbn [run]. rewrite Hstep. exact Hrun.
    + right. exists (a :: acts1), acts2, sm.
      split; [reflexivity|]. split; [|auto].
      cbn [run]. rewrite Hstep. exact Hr1.
Qed.

(** Once every submitted task has completed and as long as [Go] is not
    called again, the error slot no longer changes and every call of [Wait]
    that returns from then on, whether it was blocked, on its way or is
    made later, returns the content of the slot: all of them agree. *)
Theorem Wait_results_agree (acts : list action) (s s' : State) :
  count submitting (threads s) = 0 -> count outstanding (threads s) = 0 ->
  forallb (fun a => negb (is_Call_Go a)) acts = true ->
  run acts s = Some s' ->
  err (grp s') = err (grp s) /\
  forall i r, threads s' !! i = Some (Wait_returned r) ->
    threads s !! i = Some (Wait_returned r) \/ r = err (grp s).
Proof.
  intros Hsub Hout Hq Hrun. split.
  - apply (run_quiet _ _ _ Hq Hsub Hout Hrun).
  - intros i r Hi'.
    destruct (run_Wait_returned _ _ _ _ _ Hrun Hi')
      as [Hi|(acts1 & acts2 & sm & -> & Hr1 & _ & ->)]; [left; exact Hi|].
    right. rewrite forallb_app in Hq. apply andb_true_iff in Hq as [Hq1 _].
    apply (run_quiet _ _ _ Hq1 Hsub Hout Hr1).
Qed.

(** A failed task has ended; two calls of [Wait] run interleaved. *)
Lemma Wait_results_agree_witness :
  let acts0 := Go_uninterrupted 0 ++ fail_uninterrupted 0 error1 ++
               [Call Wait; Call Wait] in
  let acts := [Step 1%nat; Step 2%nat; Step 1%nat; Step 2%nat; Step 1%nat;
               Step 2%nat] in
  let s := after Collect [] acts0 in
  let s' := after Collect [] (acts0 ++ acts) in
  threads s' !! 1%nat = threads s' !! 2%nat /\
  err (grp s') = err (grp s) /\
  forall i r, threads s' !! i = Some (Wait_returned r) ->
    threads s !! i = Some (Wait_returned r) \/ r = err (grp s).
Proof.
  intros acts0 acts s s'.
  assert (Hsub : count submitting (threads s) = 0)
    by (vm_compute; reflexivity).
  assert (Hout : count outstanding (threads s) = 0)
    by (vm_compute; reflexivity).
  assert (Hq : forallb (fun a => negb (is_Call_Go a)) acts = true)
    by (vm_compute; reflexivity).
  assert (Hrun : run acts s = Some s') by (vm_compute; reflexivity).
  assert (He : threads s' !! 1%nat = threads s' !! 2%nat)
    by (vm_compute; reflexivity).
  split; [exact He|].
  exact (Wait_results_agree acts s s' Hsub Hout Hq Hrun).
Defined.

(** ** The zero-value group *)

Lemma Inv_zero : Inv zero_State.
Proof.
  split; simpl; try reflexivity; try discriminate; auto.
Qed.

Lemma step_no_cancel (a : action) (s s' : State) :
  cancel (grp s) = None -> step a s = Next s' ->
  ctx s = parent s -> ctx s' = parent s'.
Proof.
  intros Hc Hstep Heq. destruct a as [m|i|i r|i j|].
  - injection Hstep as <-. exact Heq.
  - simpl in Hstep. destruct (threads s !! i) as [p|]; [|discriminate].
    destruct p; simpl in Hstep;
      unfold errOnce_Do, first_error, collect_error, Cancel in Hstep;
      simpl in Hstep; rewrite ?Hc in Hstep; split_matches Hstep;
      try discriminate; injection Hstep as <-; simpl; exact Heq.
  - case_Return Hstep. exact Heq.
  - case_Handoff Hstep. exact Heq.
  - injection Hstep as <-. reflexivity.
Qed.

(** A zero-value [Group], used without [New]: it stays in [Collect] mode
    with a nil channel and a nil cancel function; the calls of [g.Cancel()]
    in [Cancel] and in [Wait] skip the nil function and change nothing, so
    the group cancels nothing; [Go] never waits at the channel, [Len] is 0,
    the counter counts the tasks submitted and not completed, and the error
    slot collects exactly the reported errors. *)
Theorem zero_value_group (s : State) :
  reachable zero_State s ->
  failureMode (grp s) = Collect /\ sem (grp s) = None /\
  cancel (grp s) = None /\ errOnce (grp s) = false /\ Len (grp s) = 0 /\
  wg (grp s) = count outstanding (threads s) /\
  ctx s = parent s /\
  (forall i, threads s !! i = Some Cancel_call ->
     step (Step i) s = Next (goto i Cancel_returned s)) /\
  (forall i, threads s !! i = Some Wait_Cancel ->
     step (Step i) s = Next (goto i Wait_return s)) /\
  (forall i, threads s !! i = Some Go_add_sem ->
     step (Step i) s = Next (goto i Go_add_wg s)) /\
  slot_errors (err (grp s)) ≡ₚ reports (threads s).
Proof.
  intros [acts Hrun].
  pose proof (Inv_run _ _ _ Inv_zero Hrun) as HI.
  destruct (run_config _ _ _ Hrun) as (Hm & Hc & Hsem).
  simpl in Hm, Hc, Hsem.
  assert (Hs : sem (grp s) = None)
    by (destruct (sem (grp s)); [discriminate|reflexivity]).
  split; [exact Hm|]. split; [exact Hs|]. split; [exact Hc|].
  split.
  { destruct (errOnce (grp s)) eqn:Ho; [|reflexivity]. exfalso.
    clear -Hrun Ho. revert Hrun Ho.
    assert (H0 : failureMode (grp zero_State) = Collect /\
                 errOnce (grp zero_State) = false) by (split; reflexivity).
    revert H0. generalize zero_State as s0.
    induction acts as [|a acts IH]; intros s0 [Hm Hf] Hrun Ho; simpl in Hrun.
    - injection Hrun as <-. congruence.
    - destruct (step a s0) as [s1| | |] eqn:Hstep; try discriminate.
      apply (IH s1); [|exact Hrun|exact Ho].
      destruct (step_config _ _ _ Hstep) as (Hm1 & _). split; [congruence|].
      step_cases Hstep; simpl; try exact Hf; try congruence. }
  split; [unfold Len; rewrite Hs; reflexivity|].
  split; [exact (inv_wg _ HI)|].
  split.
  { clear -Hrun.
    assert (H0 : cancel (grp zero_State) = None /\
                 ctx zero_State = parent zero_State) by (split; reflexivity).
    revert H0 Hrun. generalize zero_State as s0.
    induction acts as [|a acts IH]; intros s0 [Hc Heq] Hrun; simpl in Hrun.
    - injection Hrun as <-. exact Heq.
    - destruct (step a s0) as [s1| | |] eqn:Hstep; try discriminate.
      apply (IH s1); [|exact Hrun]. split.
      + destruct (step_config _ _ _ Hstep) as (_ & -> & _). exact Hc.
      + exact (step_no_cancel _ _ _ Hc Hstep Heq). }
  split.
  { intros i Hi. simpl. rewrite Hi. simpl. unfold Cancel. rewrite Hc.
    reflexivity. }
  split.
  { intros i Hi. simpl. rewrite Hi. simpl. unfold Cancel. rewrite Hc.
    reflexivity. }
  split.
  { intros i Hi. simpl. rewrite Hi. simpl. rewrite Hs. reflexivity. }
  apply (run_Collect_members acts zero_State s); [reflexivity|reflexivity|exact Hrun].
Qed.

(** A zero-value group on which one task has failed and [Cancel] was
    called. *)
Lemma zero_value_group_witness :
  let acts := Go_uninterrupted 0 ++ fail_uninterrupted 0 error1 ++
              [Call CancelM; Step 1%nat] in
  let s := match run acts zero_State with
           | Some s => s
           | None => zero_State
           end in
  threads s = [Task_exit (Some error1); Cancel_returned] /\
  failureMode (grp s) = Collect /\ ctx s = parent s /\
  slot_errors (err (grp s)) ≡ₚ reports (threads s).
Proof.
  intros acts s.
  assert (Hr : reachable zero_State s) by (exists acts; vm_compute; reflexivity).
  assert (Ht : threads s = [Task_exit (Some error1); Cancel_returned])
    by (vm_compute; reflexivity).
  destruct (zero_value_group s Hr)
    as (H1 & _ & _ & _ & _ & _ & H7 & _ & _ & _ & H10).
  split; [exact Ht|]. split; [exact H1|]. split; [exact H7|exact H10].
Defined.

(** ** workgroup.go: the retry policy *)

Lemma apply_opts_forget `{retry.API} (cs : list option_call)
    (g : workgroup_go.Group) :
  match workgroup_go.apply_opts (map option_of cs) g with
  | Some g' =>
      apply_opts (map WithLimit (limits cs)) (forget g) = Some (forget g') /\
      workgroup_go.retryOptions g' = workgroup_go.retryOptions g ++ retries cs
  | None => apply_opts (map WithLimit (limits cs)) (forget g) = None
  end.
Proof.
  revert g. induction cs as [|[n|opts] cs IH]; intros g; simpl.
  - split; [reflexivity|]. symmetry. apply app_nil_r.
  - unfold workgroup_go.WithLimit, WithLimit. destruct (make_chan n) as [c|];
      [|reflexivity].
    specialize (IH {| workgroup_go.cancel := workgroup_go.cancel g;
      workgroup_go.err := workgroup_go.err g;
      workgroup_go.errOnce := workgroup_go.errOnce g;
      workgroup_go.errLock := workgroup_go.errLock g;
      workgroup_go.wg := workgroup_go.wg g;
      workgroup_go.sem := Some c;
      workgroup_go.failureMode := workgroup_go.failureMode g;
      workgroup_go.retryOptions := workgroup_go.retryOptions g |}).
    exact IH.
  - specialize (IH {| workgroup_go.cancel := workgroup_go.cancel g;
      workgroup_go.err := workgroup_go.err g;
      workgroup_go.errOnce := workgroup_go.errOnce g;
      workgroup_go.errLock := workgroup_go.errLock g;
      workgroup_go.wg := workgroup_go.wg g;
      workgroup_go.sem := workgroup_go.sem g;
      workgroup_go.failureMode := workgroup_go.failureMode g;
      workgroup_go.retryOptions := workgroup_go.retryOptions g ++ opts |}).
    destruct (workgroup_go.apply_opts _ _) as [g'|]; [|exact IH].
    destruct IH as [IH1 IH2]. split; [exact IH1|].
    rewrite IH2. simpl. symmetry. apply app_assoc.
Qed.

(** [New] of [workgroup.go], called with options made by [WithLimit] and
    [WithRetry], panics exactly when its context argument is nil or a call
    of [WithLimit] has a negative argument; otherwise it returns the
    context derived from its argument and a group whose retry policy is one
    attempt, the last error only and the derived context, followed by what
    the calls of [WithRetry] give, in their order. *)
Theorem New_retry_policy `{retry.API} (ctx : option context.Context)
    (mode : FailureMode) (cs : list option_call) :
  match workgroup_go.New_ctx ctx mode (map option_of cs) with
  | Some (c, g) =>
      Forall (fun n => 0 <= n) (limits cs) /\
      (exists parent, ctx = Some parent /\ c = context.WithCancel parent) /\
      workgroup_go.retryOptions g =
        [retry.Attempts 1; retry.LastErrorOnly true; retry.Context c]
        ++ retries cs
  | None => ctx = None \/ Exists (fun n => n < 0) (limits cs)
  end.
Proof.
  destruct ctx as [parent|]; simpl; [|left; reflexivity].
  unfold workgroup_go.New.
  match goal with |- context [workgroup_go.apply_opts _ ?g0] =>
    pose proof (apply_opts_forget cs g0) as Hf;
    destruct (workgroup_go.apply_opts (map option_of cs) g0) as [g'|]
  end.
  - destruct Hf as [Hf Hr]. split; [|split; [eauto|exact Hr]].
    apply Forall_forall. intros n Hin.
    destruct (Z_lt_le_dec n 0) as [Hneg|Hok]; [|exact Hok]. exfalso.
    assert (HE : Exists (fun n => n < 0) (limits cs))
      by (apply Exists_exists; eauto).
    rewrite (proj2 (apply_opts_None _ _) HE) in Hf. discriminate.
  - right. exact (proj1 (apply_opts_None _ _) Hf).
Qed.

(** The two versions of the package make the same group: without its
    retry policy, the group that [New] of [workgroup.go] makes is the one
    that [New] makes from the same calls of [WithLimit], and one panics
    when the other does. *)
Theorem New_agrees `{retry.API} (ctx : context.Context) (pd : bool)
    (mode : FailureMode) (cs : list option_call) :
  option_map (fun cg => forget (snd cg))
    (workgroup_go.New ctx mode (map option_of cs)) =
  option_map grp (New pd mode (map WithLimit (limits cs))).
Proof.
  unfold workgroup_go.New, New.
  match goal with |- context [workgroup_go.apply_opts _ ?g0] =>
    pose proof (apply_opts_forget cs g0) as Hf;
    destruct (workgroup_go.apply_opts (map option_of cs) g0) as [g'|]
  end.
  - destruct Hf as [Hf _]. unfold forget at 1 in Hf. simpl in Hf.
    rewrite Hf. reflexivity.
  - unfold forget in Hf. simpl in Hf. rewrite Hf. reflexivity.
Qed.
